(** * ifacemaker: the type model, its renderer and the type parser

    A shallow embedding of [internal/generator/type.go]: the [Type] struct,
    its [String] method, [ParseType] and [parseTypesFromFile], with the
    fragment of [go/ast], [fmt] and [strings] that these functions use. *)

From Stdlib Require Import ZArith Lia Ascii String.
From stdpp Require Import base option list strings gmap.

Local Open Scope string_scope.

(** ** Results of Go calls

    A Go call either returns a value or panics; a panic unwinds through
    every caller, none of which recovers in this package. *)

Inductive result (A : Type) : Type :=
| OK (a : A)
| Panic (msg : string).
Arguments OK {A} a.
Arguments Panic {A} msg.

(** The monad of results; a loop that fills a slice element by element is
    stdpp's [mapM] in it: the first panic ends the loop. *)
#[global] Instance result_ret : MRet result := fun A a => OK a.

#[global] Instance result_bind : MBind result := fun A B k r =>
  match r with
  | OK a => k a
  | Panic msg => Panic msg
  end.

(** The message of the run-time panic raised by a field access or a method
    call through a nil pointer. *)
Definition nilDereference : string :=
  "runtime error: invalid memory address or nil pointer dereference".

(** ** [strings.Join] and [fmt.Sprintf] *)

Definition Join (elems : list string) (sep : string) : string :=
  String.concat sep elems.

(** What [fmt.Sprintf] appends when operands are left over. *)
Fixpoint extraOperands (args : list string) : string :=
  match args with
  | [] => ""
  | [a] => "string=" ++ a
  | a :: rest => "string=" ++ a ++ ", " ++ extraOperands rest
  end.

(** [fmt.Sprintf] on string operands, for the verbs the package uses on
    them: [%s] is replaced by the next operand and [%%] by a percent sign. *)
Fixpoint Sprintf (format : string) (args : list string) : string :=
  match format with
  | EmptyString =>
      match args with
      | [] => ""
      | _ => "%!(EXTRA " ++ extraOperands args ++ ")"
      end
  | String "%"%char (String "s"%char rest) =>
      match args with
      | a :: args' => a ++ Sprintf rest args'
      | [] => "%!s(MISSING)" ++ Sprintf rest []
      end
  | String "%"%char (String "%"%char rest) =>
      String "%"%char (Sprintf rest args)
  | String c rest => String c (Sprintf rest args)
  end.

(** ** The type model *)

Definition TypeKindSelector : string := "selector".
Definition TypeKindStar : string := "star".
Definition TypeKindIdent : string := "ident".
Definition TypeKindEllipsis : string := "ellipsis".
Definition TypeKindArray : string := "array".
Definition TypeKindFunc : string := "func".
Definition TypeKindMap : string := "map".
Definition TypeKindInterface : string := "interface".
Definition TypeKindChan : string := "chan".

(** [ast.ChanDir] is an [int] used as a bit set. *)
Definition SEND : Z := 1.
Definition RECV : Z := 2.

(** The struct [Type].  A [*Type] field is [None] when it is nil.  The
    values built by the parser are trees, and that is what this type holds.

    Modelled from the spec: the struct [Param] is declared outside
    [type.go]; by section 3 it is a name, possibly empty, and one owned
    [Type]. *)
#[warning="-register-all"]
Inductive Type_ : Type := mkType {
  Child : option Type_;
  Package : string;
  Name : string;
  Kind : string;
  Results : list (option Param);
  Params : list (option Param);
  mapKeyType : option Type_;
  mapValType : option Type_;
  chanDir : Z }
with Param : Type := mkParam {
  ParamName : string;
  ParamType : option Type_ }.

(** ** The renderer *)

Section Render.
(** The method [String] called through a [*Type] that may be nil. *)
Variable StringOf : Type_ -> result string.

Definition callString (p : option Type_) : result string :=
  match p with
  | Some t => StringOf t
  | None => Panic nilDereference
  end.

(** Modelled from the spec: the method [String] of [*Param] is declared
    outside [type.go]; by section 4.2 only the parameter's type is
    emitted and its name is dropped. *)
Definition callParamString (p : option Param) : result string :=
  match p with
  | Some p => callString (ParamType p)
  | None => Panic nilDereference
  end.
End Render.

Fixpoint String_ (t : Type_) : result string :=
  if String.eqb (Kind t) TypeKindStar then
    s ← callString String_ (Child t); OK ("*" ++ s)
  else if String.eqb (Kind t) TypeKindIdent then
    if String.eqb (Package t) "" then OK (Name t)
    else OK (Sprintf "%s.%s" [Package t; Name t])
  else if String.eqb (Kind t) TypeKindEllipsis then
    s ← callString String_ (Child t); OK (Sprintf "...%s" [s])
  else if String.eqb (Kind t) TypeKindArray then
    s ← callString String_ (Child t); OK (Sprintf "[]%s" [s])
  else if String.eqb (Kind t) TypeKindMap then
    k ← callString String_ (mapKeyType t);
    v ← callString String_ (mapValType t);
    OK (Sprintf "map[%s]%s" [k; v])
  else if String.eqb (Kind t) TypeKindSelector then
    OK (Sprintf "%s.%s" [Package t; Name t])
  else if String.eqb (Kind t) TypeKindInterface then
    OK "interface{}"
  else if String.eqb (Kind t) TypeKindFunc then
    params ← mapM (callParamString String_) (Params t);
    results ← mapM (callParamString String_) (Results t);
    let resultsTemplate :=
      if Nat.ltb 1 (length results) then "(%s)" else "%s" in
    OK (Sprintf ("func(%s) " ++ resultsTemplate)
          [Join params ", "; Join results ", "])
  else if String.eqb (Kind t) TypeKindChan then
    let format :=
      if Z.eqb (chanDir t) RECV then "<-chan %s"
      else if Z.eqb (chanDir t) SEND then "chan<- %s"
      else "chan %s" in
    s ← callString String_ (Child t); OK (Sprintf format [s])
  else OK "".


(** ** Syntax trees

    The implementations of the interface [ast.Node] that [type.go] tells
    apart, as [go/ast] declares them.  [NilNode] is the nil interface value.
    A [*ast.Ident] field is held by its [Name], a [*ast.FieldList] by its
    [List], [None] when the pointer is nil.  [OtherNode] stands for a node of
    any other dynamic type: [dyn] is that type as the verb [%T] prints it,
    [children] the nodes [ast.Walk] reaches from it, in its order.  Positions,
    comments, tags and type-parameter lists are left out. *)
#[warning="-register-all"]
Inductive Node : Type :=
| NilNode
| Ident (Name : string)
| SelectorExpr (X : Node) (Sel : string)
| Ellipsis (Elt : Node)
| StarExpr (X : Node)
| FuncType (Params Results : option (list Field))
| ArrayType (Len Elt : Node)
| MapType (Key Value : Node)
| InterfaceType (Methods : option (list Field))
| ChanType (Dir : Z) (Value : Node)
| TypeSpec (Name : string) (Type_ : Node)
| File (Name : string) (Decls : list Node)
| FieldListNode (List : list Field)
| FieldNode (f : Field)
| OtherNode (dyn : string) (children : list Node)
with Field : Type :=
| mkField (Names : list string) (Type_ : Node).

Definition Names (f : Field) : list string :=
  match f with mkField names _ => names end.

Definition FieldType (f : Field) : Node :=
  match f with mkField _ type => type end.

(** The dynamic type of a node, as [%T] prints it. *)
Definition dynamicType (node : Node) : string :=
  match node with
  | NilNode => "<nil>"
  | Ident _ => "*ast.Ident"
  | SelectorExpr _ _ => "*ast.SelectorExpr"
  | Ellipsis _ => "*ast.Ellipsis"
  | StarExpr _ => "*ast.StarExpr"
  | FuncType _ _ => "*ast.FuncType"
  | ArrayType _ _ => "*ast.ArrayType"
  | MapType _ _ => "*ast.MapType"
  | InterfaceType _ => "*ast.InterfaceType"
  | ChanType _ _ => "*ast.ChanType"
  | TypeSpec _ _ => "*ast.TypeSpec"
  | File _ _ => "*ast.File"
  | FieldListNode _ => "*ast.FieldList"
  | FieldNode _ => "*ast.Field"
  | OtherNode dyn _ => dyn
  end.

(** ** The parser *)

(** Modelled from the spec: [identName] is declared outside [type.go]; by
    section 4.1 it gives the name of an identifier.  The spec does not say
    what it gives for a node that is not an identifier; the empty string
    stands for that here, and every statement below about a qualified
    reference is about one whose [X] is an identifier. *)
Definition identName (node : Node) : string :=
  match node with
  | Ident name => name
  | _ => ""
  end.

(** Modelled from the spec: [extractList] is declared outside [type.go]; it
    gives the fields of a field list, none when the list is absent (a
    function without results has a nil [Results]). *)
Definition extractList (fl : option (list Field)) : list Field :=
  match fl with
  | Some l => l
  | None => []
  end.

Section ParseMany.
(** [ParseType] at the set of local types and the package of the call. *)
Variable parse : Node -> result Type_.

(** One [Param] for a field without names, else one for each name. *)
Definition parseField (f : Field) : result (list (option Param)) :=
  match Names f with
  | [] => t ← parse (FieldType f); OK [Some (mkParam "" (Some t))]
  | names =>
      mapM (fun name => t ← parse (FieldType f);
                        OK (Some (mkParam name (Some t)))) names
  end.

(** Modelled from the spec: [ParseMany] is declared outside [type.go]; by
    section 4.1 it parses the type of every declared slot, in order, a
    field that groups several names under one type giving one [Param] for
    each name. *)
Definition ParseManyWith (fields : list Field)
  : result (list (option Param)) :=
  ps ← mapM parseField fields; OK (concat ps).

(** [ParseMany(extractList(fl), ...)], with the case distinction of
    [extractList] brought outside the call, which lets the recursion of
    [ParseType] through the fields be checked as structural. *)
Definition ParseManyOf (fl : option (list Field))
  : result (list (option Param)) :=
  match fl with
  | Some l => ParseManyWith l
  | None => ParseManyWith []
  end.
End ParseMany.

Section ParseType.
Variable typesMap : gset string.
Variable sourcePackageName : string.

Definition formatPackage (pkg typeName : string) : string :=
  if negb (String.eqb pkg "") then ""
  else if bool_decide (typeName ∈ typesMap) then sourcePackageName
  else pkg.

Fixpoint ParseType (node : Node) : result Type_ :=
  match node with
  | SelectorExpr X Sel =>
      OK {| Child := None; Package := identName X; Name := Sel;
            Kind := TypeKindSelector; Results := []; Params := [];
            mapKeyType := None; mapValType := None; chanDir := 0 |}
  | Ident _ =>
      OK {| Child := None;
            Package := formatPackage "" (identName node);
            Name := identName node;
            Kind := TypeKindIdent; Results := []; Params := [];
            mapKeyType := None; mapValType := None; chanDir := 0 |}
  | Ellipsis Elt =>
      c ← ParseType Elt;
      OK {| Child := Some c; Package := ""; Name := "";
            Kind := TypeKindEllipsis; Results := []; Params := [];
            mapKeyType := None; mapValType := None; chanDir := 0 |}
  | StarExpr X =>
      c ← ParseType X;
      OK {| Child := Some c; Package := ""; Name := "";
            Kind := TypeKindStar; Results := []; Params := [];
            mapKeyType := None; mapValType := None; chanDir := 0 |}
  | FuncType Params_ Results_ =>
      ps ← ParseManyOf ParseType Params_;
      rs ← ParseManyOf ParseType Results_;
      OK {| Child := None; Package := ""; Name := "";
            Kind := TypeKindFunc; Results := rs; Params := ps;
            mapKeyType := None; mapValType := None; chanDir := 0 |}
  | ArrayType _ Elt =>
      c ← ParseType Elt;
      OK {| Child := Some c; Package := ""; Name := "";
            Kind := TypeKindArray; Results := []; Params := [];
            mapKeyType := None; mapValType := None; chanDir := 0 |}
  | MapType Key Value =>
      k ← ParseType Key;
      v ← ParseType Value;
      OK {| Child := None; Package := ""; Name := "";
            Kind := TypeKindMap; Results := []; Params := [];
            mapKeyType := Some k; mapValType := Some v; chanDir := 0 |}
  | InterfaceType _ =>
      OK {| Child := None; Package := ""; Name := "";
            Kind := TypeKindInterface; Results := []; Params := [];
            mapKeyType := None; mapValType := None; chanDir := 0 |}
  | ChanType Dir Value =>
      c ← ParseType Value;
      OK {| Child := Some c; Package := ""; Name := "";
            Kind := TypeKindChan; Results := []; Params := [];
            mapKeyType := None; mapValType := None; chanDir := Dir |}
  | _ => Panic ("unhandled type " ++ dynamicType node)
  end.

(** [ParseMany] calls back into [ParseType] with the same set and
    package. *)
Definition ParseMany (fields : list Field) : result (list (option Param)) :=
  ParseManyWith ParseType fields.
End ParseType.

(** The node shapes that [ParseType] has a case for. *)
Definition supportedShape (node : Node) : bool :=
  match node with
  | SelectorExpr _ _ | Ident _ | Ellipsis _ | StarExpr _ | FuncType _ _
  | ArrayType _ _ | MapType _ _ | InterfaceType _ | ChanType _ _ => true
  | _ => false
  end.

(** ** The invariants of the model

    A map has its key and its value type, a pointer, slice, variadic or
    channel type has its child, a parameter has its type, and so on through
    the whole tree. *)
Definition needsChild (kind : string) : bool :=
  String.eqb kind TypeKindStar || String.eqb kind TypeKindArray
  || String.eqb kind TypeKindEllipsis || String.eqb kind TypeKindChan.

Section ParamInvariants.
Variable holds : Type_ -> bool.

(** An entry of a parameter list is a parameter, with a type on which the
    invariants hold. *)
Definition paramInvariants (p : option Param) : bool :=
  match p with
  | Some p => match ParamType p with Some c => holds c | None => false end
  | None => false
  end.
End ParamInvariants.

Fixpoint invariantsHold (t : Type_) : bool :=
  let sub (p : option Type_) :=
    match p with Some c => invariantsHold c | None => true end in
  implb (String.eqb (Kind t) TypeKindMap)
        (bool_decide (is_Some (mapKeyType t))
         && bool_decide (is_Some (mapValType t)))
  && implb (needsChild (Kind t)) (bool_decide (is_Some (Child t)))
  && sub (Child t) && sub (mapKeyType t) && sub (mapValType t)
  && forallb (paramInvariants invariantsHold) (Params t)
  && forallb (paramInvariants invariantsHold) (Results t).

(** ** [ast.Inspect]

    [Inspect] calls [f] on a node; when [f] returns true it goes through the
    non-nil children of the node in the order of [ast.Walk] and ends with a
    call of [f] on nil; a child that is nil is passed over.  The callback of
    the package is a closure that appends to a captured slice: [f] takes the
    captured state and returns it. *)
Section Inspect.
Context {S : Type}.
Variable f : Node -> S -> bool * S.

Definition visit (node : Node) (inside : S -> S) (s : S) : S :=
  let '(more, s1) := f node s in
  if more then snd (f NilNode (inside s1)) else s1.

Definition inspectIdents (names : list string) (s : S) : S :=
  fold_left (fun s name => visit (Ident name) id s) names s.

Fixpoint Inspect (node : Node) (s : S) : S :=
  let inspectFieldList (l : list Field) : S -> S :=
    visit (FieldListNode l)
          (fun s => fold_left (fun s fld => InspectField fld s) l s) in
  let inspectFields (fl : option (list Field)) (s : S) : S :=
    match fl with
    | Some l => inspectFieldList l s
    | None => s
    end in
  match node with
  | NilNode => s
  | Ident _ => visit node id s
  | SelectorExpr X Sel =>
      visit node (fun s => visit (Ident Sel) id (Inspect X s)) s
  | Ellipsis Elt => visit node (Inspect Elt) s
  | StarExpr X => visit node (Inspect X) s
  | FuncType Params_ Results_ =>
      visit node (fun s => inspectFields Results_ (inspectFields Params_ s)) s
  | ArrayType Len Elt => visit node (fun s => Inspect Elt (Inspect Len s)) s
  | MapType Key Value => visit node (fun s => Inspect Value (Inspect Key s)) s
  | InterfaceType Methods => visit node (inspectFields Methods) s
  | ChanType _ Value => visit node (Inspect Value) s
  | TypeSpec name type =>
      visit node (fun s => Inspect type (visit (Ident name) id s)) s
  | File name decls =>
      visit node
            (fun s => fold_left (fun s d => Inspect d s) decls
                                (visit (Ident name) id s)) s
  | FieldListNode l => inspectFieldList l s
  | FieldNode fld => InspectField fld s
  | OtherNode _ cs =>
      visit node (fun s => fold_left (fun s c => Inspect c s) cs s) s
  end
with InspectField (fld : Field) (s : S) : S :=
  match fld with
  | mkField names type =>
      visit (FieldNode fld)
            (fun s => Inspect type (inspectIdents names s)) s
  end.
End Inspect.

(** ** [parseTypesFromFile] *)

Section ParseTypesFromFile.
(** The method [IsExported] of [*ast.Ident], from [go/ast]: whether the
    name starts with an upper-case letter, by the tables of [unicode]. *)
Variable IsExported : string -> bool.

(** The function literal given to [ast.Inspect]; [types] is the slice it
    captures. *)
Definition collectType (node : Node) (types : list string)
  : bool * list string :=
  match node with
  | TypeSpec name _ =>
      if negb (IsExported name) then (true, types)
      else (true, (types ++ [name])%list)
  | _ => (true, types)
  end.

Definition parseTypesFromFile (fileAst : Node) : list string :=
  Inspect collectType fileAst [].
End ParseTypesFromFile.

(** Upper-case ASCII letters, the part of [unicode.IsUpper] that the
    examples below need. *)
Definition IsExportedASCII (name : string) : bool :=
  match name with
  | String c _ => (65 <=? nat_of_ascii c)%nat && (nat_of_ascii c <=? 90)%nat
  | EmptyString => false
  end.

(** ** What a syntax tree contains *)

Definition fieldListChild (fl : option (list Field)) : list Node :=
  match fl with
  | Some l => [FieldListNode l]
  | None => []
  end.

(** The children of a node, in the order of [ast.Walk]. *)
Definition children (node : Node) : list Node :=
  match node with
  | NilNode | Ident _ => []
  | SelectorExpr X Sel => [X; Ident Sel]
  | Ellipsis Elt => [Elt]
  | StarExpr X => [X]
  | FuncType Params_ Results_ =>
      (fieldListChild Params_ ++ fieldListChild Results_)%list
  | ArrayType Len Elt => [Len; Elt]
  | MapType Key Value => [Key; Value]
  | InterfaceType Methods => fieldListChild Methods
  | ChanType _ Value => [Value]
  | TypeSpec name type => [Ident name; type]
  | File name decls => Ident name :: decls
  | FieldListNode l => map FieldNode l
  | FieldNode fld => (map Ident (Names fld) ++ [FieldType fld])%list
  | OtherNode _ cs => cs
  end.

(** [contains node m]: [m] is [node] or a node below it. *)
Inductive contains : Node -> Node -> Prop :=
| contains_self node : node <> NilNode -> contains node node
| contains_child node c m :
    In c (children node) -> contains c m -> contains node m.

(** The number of nodes of a tree, the measure of the inductions below. *)
Fixpoint size (node : Node) : nat :=
  let sizeFields (fl : option (list Field)) : nat :=
    match fl with
    | Some l => S (list_sum (map sizeField l))
    | None => 0
    end in
  match node with
  | NilNode | Ident _ => 1
  | SelectorExpr X _ => 2 + size X
  | Ellipsis Elt => 1 + size Elt
  | StarExpr X => 1 + size X
  | FuncType Params_ Results_ => 1 + sizeFields Params_ + sizeFields Results_
  | ArrayType Len Elt => 1 + size Len + size Elt
  | MapType Key Value => 1 + size Key + size Value
  | InterfaceType Methods => 1 + sizeFields Methods
  | ChanType _ Value => 1 + size Value
  | TypeSpec _ type => 2 + size type
  | File _ decls => 2 + list_sum (map size decls)
  | FieldListNode l => 1 + list_sum (map sizeField l)
  | FieldNode fld => sizeField fld
  | OtherNode _ cs => 1 + list_sum (map size cs)
  end
with sizeField (fld : Field) : nat :=
  match fld with
  | mkField names type => 2 + length names + size type
  end.

(** ** The renderer on the heap

    In the program a [*Type] is an address.  A heap holds the structs; the
    renderer reads through it.  The addresses of a heap may form a cycle,
    on which the method would not return, so the reading is bounded by a
    number of nested calls. *)

Definition loc := positive.

Record TypeCell : Type := mkTypeCell {
  cChild : option loc;
  cPackage : string;
  cName : string;
  cKind : string;
  cResults : list (option loc);
  cParams : list (option loc);
  cmapKeyType : option loc;
  cmapValType : option loc;
  cchanDir : Z }.

Record ParamCell : Type := mkParamCell {
  cParamName : string;
  cParamType : option loc }.

Record Heap : Type := mkHeap {
  typeCells : gmap loc TypeCell;
  paramCells : gmap loc ParamCell }.

(** A computation on the heap: [None] when the bound on nested calls is
    reached, else the value or the panic, and the heap it leaves.  Go has
    no dangling pointers: an address without a struct is met on no heap that
    holds a tree, and the panic for it is there to make [loadType] and
    [loadParam] total. *)
Definition M (A : Type) : Type := Heap -> option (result A * Heap).

Definition retM {A} (a : A) : M A := fun h => Some (OK a, h).

Definition bindM {A B} (m : M A) (k : A -> M B) : M B := fun h =>
  match m h with
  | Some (OK a, h') => k a h'
  | Some (Panic msg, h') => Some (Panic msg, h')
  | None => None
  end.

Notation "'do*' x <- m ; k" := (bindM m (fun x => k))
  (at level 10, x name, m at level 100, k at level 200).

Definition loadType (p : option loc) : M TypeCell := fun h =>
  match p with
  | None => Some (Panic nilDereference, h)
  | Some l =>
      match typeCells h !! l with
      | Some c => Some (OK c, h)
      | None => Some (Panic "no struct at the address", h)
      end
  end.

Definition loadParam (p : option loc) : M ParamCell := fun h =>
  match p with
  | None => Some (Panic nilDereference, h)
  | Some l =>
      match paramCells h !! l with
      | Some c => Some (OK c, h)
      | None => Some (Panic "no struct at the address", h)
      end
  end.

Section MapMM.
Context {A B : Type} (f : A -> M B).

Fixpoint mapMM (l : list A) : M (list B) :=
  match l with
  | [] => retM []
  | a :: l' => do* b <- f a; do* bs <- mapMM l'; retM (b :: bs)
  end.
End MapMM.

(** Modelled from the spec: the method [String] of [*Param] renders the
    type of the parameter; [render] is the method [String] of [*Type]. *)
Definition paramStringAt (render : option loc -> M string) (p : option loc)
  : M string :=
  do* pc <- loadParam p; render (cParamType pc).

Fixpoint StringAt (calls : nat) (t : option loc) : M string :=
  match calls with
  | O => fun _ => None
  | S calls' =>
      do* c <- loadType t;
      if String.eqb (cKind c) TypeKindStar then
        do* s <- StringAt calls' (cChild c); retM ("*" ++ s)
      else if String.eqb (cKind c) TypeKindIdent then
        if String.eqb (cPackage c) "" then retM (cName c)
        else retM (Sprintf "%s.%s" [cPackage c; cName c])
      else if String.eqb (cKind c) TypeKindEllipsis then
        do* s <- StringAt calls' (cChild c); retM (Sprintf "...%s" [s])
      else if String.eqb (cKind c) TypeKindArray then
        do* s <- StringAt calls' (cChild c); retM (Sprintf "[]%s" [s])
      else if String.eqb (cKind c) TypeKindMap then
        do* k <- StringAt calls' (cmapKeyType c);
        do* v <- StringAt calls' (cmapValType c);
        retM (Sprintf "map[%s]%s" [k; v])
      else if String.eqb (cKind c) TypeKindSelector then
        retM (Sprintf "%s.%s" [cPackage c; cName c])
      else if String.eqb (cKind c) TypeKindInterface then
        retM "interface{}"
      else if String.eqb (cKind c) TypeKindFunc then
        do* params <- mapMM (paramStringAt (StringAt calls')) (cParams c);
        do* results <- mapMM (paramStringAt (StringAt calls')) (cResults c);
        let resultsTemplate :=
          if Nat.ltb 1 (length results) then "(%s)" else "%s" in
        retM (Sprintf ("func(%s) " ++ resultsTemplate)
                [Join params ", "; Join results ", "])
      else if String.eqb (cKind c) TypeKindChan then
        let format :=
          if Z.eqb (cchanDir c) RECV then "<-chan %s"
          else if Z.eqb (cchanDir c) SEND then "chan<- %s"
          else "chan %s" in
        do* s <- StringAt calls' (cChild c); retM (Sprintf format [s])
      else retM ""
  end.

(** ** Trees on the heap *)

Section Represents.
Variable h : Heap.
Variable rep : Type_ -> option loc -> Prop.

(** A nil pointer stands for an absent tree, an address for a tree. *)
Definition representsOpt (o : option Type_) (q : option loc) : Prop :=
  match o with
  | Some c => rep c q
  | None => q = None
  end.

Definition representsParam (o : option Param) (q : option loc) : Prop :=
  match o, q with
  | Some pa, Some l =>
      exists pc, paramCells h !! l = Some pc
                 /\ cParamName pc = ParamName pa
                 /\ representsOpt (ParamType pa) (cParamType pc)
  | None, None => True
  | _, _ => False
  end.

Fixpoint representsParams (os : list (option Param)) (qs : list (option loc))
  : Prop :=
  match os, qs with
  | [], [] => True
  | o :: os', q :: qs' => representsParam o q /\ representsParams os' qs'
  | _, _ => False
  end.
End Represents.

(** [represents h t p]: the structs reached from address [p] in heap [h]
    spell the tree [t]. *)
Fixpoint represents (h : Heap) (t : Type_) (p : option loc) {struct t}
  : Prop :=
  match p with
  | None => False
  | Some l =>
      exists c, typeCells h !! l = Some c
        /\ cPackage c = Package t /\ cName c = Name t /\ cKind c = Kind t
        /\ cchanDir c = chanDir t
        /\ representsOpt (represents h) (Child t) (cChild c)
        /\ representsOpt (represents h) (mapKeyType t) (cmapKeyType c)
        /\ representsOpt (represents h) (mapValType t) (cmapValType c)
        /\ representsParams h (represents h) (Params t) (cParams c)
        /\ representsParams h (represents h) (Results t) (cResults c)
  end.

Section Depth.
Variable depthOf : Type_ -> nat.

Definition depthOpt (o : option Type_) : nat :=
  match o with Some c => depthOf c | None => 0 end.

Definition depthParam (o : option Param) : nat :=
  match o with Some pa => depthOpt (ParamType pa) | None => 0 end.
End Depth.

(** The number of nested calls of [String] below the one on the root of a
    tree, plus one. *)
Fixpoint depth (t : Type_) : nat :=
  S (max (depthOpt depth (Child t))
      (max (depthOpt depth (mapKeyType t))
        (max (depthOpt depth (mapValType t))
          (max (list_max (map (depthParam depth) (Params t)))
               (list_max (map (depthParam depth) (Results t))))))).

(** ** Notions used in the statements *)

(** The nine kinds that [String] has a case for. *)
Definition recognizedKinds : list string :=
  [TypeKindStar; TypeKindIdent; TypeKindEllipsis; TypeKindArray; TypeKindMap;
   TypeKindSelector; TypeKindInterface; TypeKindFunc; TypeKindChan].

Definition recognizedKind (kind : string) : bool :=
  existsb (String.eqb kind) recognizedKinds.

(** [rendersParam p s]: the entry [p] of a parameter list is a parameter
    with a type, and that type renders as [s]. *)
Definition rendersParam (p : option Param) (s : string) : Prop :=
  exists pa ty, p = Some pa /\ ParamType pa = Some ty /\ String_ ty = OK s.

(** The result segment of a rendered function type, from the rendered
    results. *)
Definition resultSegment (rs : list string) : string :=
  match rs with
  | [] => ""
  | [r] => r
  | _ => "(" ++ Join rs ", " ++ ")"
  end.

(** The type that [ParseType] builds for an identifier. *)
Definition identType (package name : string) : Type_ :=
  {| Child := None; Package := package; Name := name; Kind := TypeKindIdent;
     Results := []; Params := []; mapKeyType := None; mapValType := None;
     chanDir := 0 |}.

(** The type that [ParseType] builds for a qualified reference. *)
Definition selectorType (package name : string) : Type_ :=
  {| Child := None; Package := package; Name := name;
     Kind := TypeKindSelector; Results := []; Params := [];
     mapKeyType := None; mapValType := None; chanDir := 0 |}.

(** The type that [ParseType] builds for an interface node. *)
Definition interfaceType : Type_ :=
  {| Child := None; Package := ""; Name := ""; Kind := TypeKindInterface;
     Results := []; Params := []; mapKeyType := None; mapValType := None;
     chanDir := 0 |}.

(** The type that [ParseType] builds for a channel node. *)
Definition chanType (dir : Z) (c : Type_) : Type_ :=
  {| Child := Some c; Package := ""; Name := ""; Kind := TypeKindChan;
     Results := []; Params := []; mapKeyType := None; mapValType := None;
     chanDir := dir |}.

(** [declares IsExported node x]: [node] contains the declaration of a type
    named [x], and [x] is exported. *)
Definition declares (IsExported : string -> bool) (node : Node) (x : string)
  : Prop :=
  IsExported x = true /\ exists type, contains node (TypeSpec x type).

(** A source file for the examples: [type Foo struct { a int }] and
    [type bar int] at the top, and [type Local int] inside the body of a
    function [F]. *)
Definition sampleFile : Node :=
  File "pkg"
    [OtherNode "*ast.GenDecl"
       [TypeSpec "Foo"
          (OtherNode "*ast.StructType"
             [FieldListNode [mkField ["a"] (Ident "int")]]);
        TypeSpec "bar" (Ident "int")];
     OtherNode "*ast.FuncDecl"
       [Ident "F"; FuncType (Some []) None;
        OtherNode "*ast.BlockStmt"
          [OtherNode "*ast.DeclStmt"
             [OtherNode "*ast.GenDecl" [TypeSpec "Local" (Ident "int")]]]]].

(** The tree of [func(n *Foo) error], and two heaps that hold it, at
    different addresses; the second heap holds one more struct. *)
Definition sampleTree : Type_ :=
  {| Child := None; Package := ""; Name := ""; Kind := TypeKindFunc;
     Results := [Some (mkParam "" (Some (identType "" "error")))];
     Params :=
       [Some (mkParam "n"
                (Some {| Child := Some (identType "" "Foo"); Package := "";
                         Name := ""; Kind := TypeKindStar; Results := [];
                         Params := []; mapKeyType := None;
                         mapValType := None; chanDir := 0 |}))];
     mapKeyType := None; mapValType := None; chanDir := 0 |}.

Definition identCell (name : string) : TypeCell :=
  mkTypeCell None "" name TypeKindIdent [] [] None None 0.

Definition sampleHeap : Heap :=
  {| typeCells :=
       <[1%positive := mkTypeCell None "" "" TypeKindFunc
                         [Some 11%positive] [Some 10%positive] None None 0]>
       (<[2%positive := mkTypeCell (Some 3%positive) "" "" TypeKindStar
                          [] [] None None 0]>
       (<[3%positive := identCell "Foo"]>
       (<[4%positive := identCell "error"]> ∅)));
     paramCells :=
       <[10%positive := mkParamCell "n" (Some 2%positive)]>
       (<[11%positive := mkParamCell "" (Some 4%positive)]> ∅) |}.

Definition sampleHeap' : Heap :=
  {| typeCells :=
       <[7%positive := mkTypeCell None "" "" TypeKindFunc
                         [Some 2%positive] [Some 1%positive] None None 0]>
       (<[5%positive := mkTypeCell (Some 9%positive) "" "" TypeKindStar
                          [] [] None None 0]>
       (<[9%positive := identCell "Foo"]>
       (<[6%positive := identCell "error"]>
       (<[8%positive := identCell "unrelated"]> ∅))));
     paramCells :=
       <[1%positive := mkParamCell "n" (Some 5%positive)]>
       (<[2%positive := mkParamCell "" (Some 6%positive)]> ∅) |}.

(** ** Nodes in type position

    The nodes that [ParseType] is called on while it parses a node: the node
    and, through its recursive calls, the element of a variadic, pointer,
    array or channel node, the key and the value of a map node and the types
    of the fields of a function node. *)
Definition fieldTypes (fl : option (list Field)) : list Node :=
  map FieldType (extractList fl).

Definition typeChildren (node : Node) : list Node :=
  match node with
  | Ellipsis Elt => [Elt]
  | StarExpr X => [X]
  | FuncType Params_ Results_ =>
      (fieldTypes Params_ ++ fieldTypes Results_)%list
  | ArrayType _ Elt => [Elt]
  | MapType Key Value => [Key; Value]
  | ChanType _ Value => [Value]
  | _ => []
  end.

Inductive typePosition : Node -> Node -> Prop :=
| typePosition_self node : typePosition node node
| typePosition_child node c m :
    In c (typeChildren node) -> typePosition c m -> typePosition node m.

(** The message of the panic of [ParseType] on a node without a case. *)
Definition unhandled (node : Node) : string :=
  "unhandled type " ++ dynamicType node.

(** The qualifier that [formatPackage] gives to a bare identifier. *)
Definition qualifier (typesMap : gset string) (pkg name : string) : string :=
  if bool_decide (name ∈ typesMap) then pkg else "".

(** The text of a type expression: [ParseType], then [String]. *)
Definition renderNode (typesMap : gset string) (pkg : string) (node : Node)
  : result string :=
  t ← ParseType typesMap pkg node; String_ t.

(** [parsedParam parse fields p]: the entry [p] is a parameter whose type
    is what [parse] returned on the type of one of the fields. *)
Definition parsedParam (parse : Node -> result Type_) (fields : list Field)
    (p : option Param) : Prop :=
  exists name fld t,
    p = Some (mkParam name (Some t))
    /\ In fld fields /\ parse (FieldType fld) = OK t.

(** ** Properties of every type of a tree *)

Section Everywhere.
Variable ev : Type_ -> bool.

Definition everywhereOpt (o : option Type_) : bool :=
  match o with Some c => ev c | None => true end.

Definition everywhereParam (p : option Param) : bool :=
  match p with Some pa => everywhereOpt (ParamType pa) | None => true end.
End Everywhere.

(** [everywhere P t]: [P] holds of [t] and of every type below it. *)
Fixpoint everywhere (P : Type_ -> bool) (t : Type_) : bool :=
  P t
  && everywhereOpt (everywhere P) (Child t)
  && everywhereOpt (everywhere P) (mapKeyType t)
  && everywhereOpt (everywhere P) (mapValType t)
  && forallb (everywhereParam (everywhere P)) (Params t)
  && forallb (everywhereParam (everywhere P)) (Results t).

Definition hasRecognizedKind (t : Type_) : bool := recognizedKind (Kind t).

Definition isNil {A} (o : option A) : bool :=
  match o with Some _ => false | None => true end.

Definition isEmpty {A} (l : list A) : bool :=
  match l with [] => true | _ => false end.

(** The fields of a [Type] that do not belong to its kind hold their zero
    value, and [Child], [mapKeyType] and [mapValType] are set exactly for
    the kinds that own them. *)
Definition fieldsMatchKind (t : Type_) : bool :=
  Bool.eqb (isNil (Child t)) (negb (needsChild (Kind t)))
  && Bool.eqb (isNil (mapKeyType t)) (negb (String.eqb (Kind t) TypeKindMap))
  && Bool.eqb (isNil (mapValType t)) (negb (String.eqb (Kind t) TypeKindMap))
  && (String.eqb (Kind t) TypeKindFunc
      || isEmpty (Params t) && isEmpty (Results t))
  && (String.eqb (Kind t) TypeKindIdent
      || String.eqb (Kind t) TypeKindSelector
      || String.eqb (Package t) "" && String.eqb (Name t) "")
  && (String.eqb (Kind t) TypeKindChan || Z.eqb (chanDir t) 0).

(** The name that [collectType] appends on a node: that of an exported type
    declaration. *)
Definition ownType (IsExported : string -> bool) (node : Node)
  : list string :=
  match node with
  | TypeSpec name _ => if IsExported name then [name] else []
  | _ => []
  end.

(** ** [findSourceFiles], of [cmd/ifacemaker/main.go] *)

(** [strings.HasSuffix]:
    [len(s) >= len(suffix) && s[len(s)-len(suffix):] == suffix]. *)
Definition HasSuffix (s suffix : string) : bool :=
  (String.length suffix <=? String.length s)%nat
  && String.eqb
       (substring (String.length s - String.length suffix)
                  (String.length suffix) s)
       suffix.

(** An [os.DirEntry], by what its methods [Name] and [IsDir] return. *)
Record DirEntry : Type := mkDirEntry {
  entryName : string;
  entryIsDir : bool }.

Section FindSourceFiles.
(** [os.ReadDir]: the entries it could read, and the error if there is
    one. *)
Variable ReadDir : string -> list DirEntry * option string.
(** [filepath.Join] at two elements. *)
Variable filepathJoin : string -> string -> string.

(** The body of the loop over the entries; [files] is the slice it
    appends to. *)
Definition keepSourceFile (directory : string) (files : list string)
    (e : DirEntry) : list string :=
  if entryIsDir e then files
  else if HasSuffix (entryName e) "_test.go"
          || negb (HasSuffix (entryName e) ".go") then files
  else (files ++ [filepathJoin directory (entryName e)])%list.

Definition findSourceFiles (directory : string)
  : list string * option string :=
  let '(entries, err) := ReadDir directory in
  match err with
  | Some e => ([], Some e)
  | None => (fold_left (keepSourceFile directory) entries [], None)
  end.
End FindSourceFiles.

(** An entry that is not a directory and whose name ends in [.go] but not
    in [_test.go]. *)
Definition isSourceFile (e : DirEntry) : bool :=
  negb (entryIsDir e)
  && HasSuffix (entryName e) ".go"
  && negb (HasSuffix (entryName e) "_test.go").

(** * Properties *)

(** ** Strings *)

Lemma append_empty_r (s : string) : s ++ "" = s.
Proof.
  induction s as [|c s IH]; [reflexivity|].
  change (String c (s ++ "") = String c s). now rewrite IH.
Qed.

Lemma Sprintf_qualified (pkg name : string) :
  Sprintf "%s.%s" [pkg; name] = pkg ++ "." ++ name.
Proof.
  change (pkg ++ "." ++ name ++ "" = pkg ++ "." ++ name).
  now rewrite append_empty_r.
Qed.

Lemma Sprintf_func_plain (ps rs : string) :
  Sprintf ("func(%s) " ++ "%s") [ps; rs] = "func(" ++ ps ++ ") " ++ rs.
Proof.
  change ("func(" ++ ps ++ ") " ++ rs ++ "" = "func(" ++ ps ++ ") " ++ rs).
  now rewrite append_empty_r.
Qed.

Lemma Sprintf_func_parens (ps rs : string) :
  Sprintf ("func(%s) " ++ "(%s)") [ps; rs]
  = "func(" ++ ps ++ ") " ++ "(" ++ rs ++ ")".
Proof. reflexivity. Qed.

Lemma Sprintf_chan (s : string) : Sprintf "chan %s" [s] = "chan " ++ s.
Proof.
  change ("chan " ++ s ++ "" = "chan " ++ s). now rewrite append_empty_r.
Qed.

Lemma Sprintf_chan_recv (s : string) :
  Sprintf "<-chan %s" [s] = "<-chan " ++ s.
Proof.
  change ("<-chan " ++ s ++ "" = "<-chan " ++ s). now rewrite append_empty_r.
Qed.

Lemma Sprintf_chan_send (s : string) :
  Sprintf "chan<- %s" [s] = "chan<- " ++ s.
Proof.
  change ("chan<- " ++ s ++ "" = "chan<- " ++ s). now rewrite append_empty_r.
Qed.

(** ** The renderer, kind by kind *)

Ltac kind_case t H :=
  destruct t; simpl in H; subst; reflexivity.

Lemma String_ident (t : Type_) :
  Kind t = TypeKindIdent ->
  String_ t = if String.eqb (Package t) "" then OK (Name t)
              else OK (Sprintf "%s.%s" [Package t; Name t]).
Proof. intros H. kind_case t H. Qed.

Lemma String_selector (t : Type_) :
  Kind t = TypeKindSelector ->
  String_ t = OK (Sprintf "%s.%s" [Package t; Name t]).
Proof. intros H. kind_case t H. Qed.

Lemma String_func (t : Type_) :
  Kind t = TypeKindFunc ->
  String_ t =
    params ← mapM (callParamString String_) (Params t);
    results ← mapM (callParamString String_) (Results t);
    OK (Sprintf ("func(%s) "
                 ++ (if Nat.ltb 1 (length results) then "(%s)" else "%s"))
          [Join params ", "; Join results ", "]).
Proof. intros H. kind_case t H. Qed.

Lemma String_chan (t : Type_) :
  Kind t = TypeKindChan ->
  String_ t =
    s ← callString String_ (Child t);
    OK (Sprintf (if Z.eqb (chanDir t) RECV then "<-chan %s"
                 else if Z.eqb (chanDir t) SEND then "chan<- %s"
                 else "chan %s") [s]).
Proof. intros H. kind_case t H. Qed.

(** ** Unrecognized kinds *)

(** C6: a [Type] whose [Kind] is none of the nine recognized kinds renders
    as the empty string; the renderer does not fail on it, whatever its
    other fields hold. *)
Theorem unrecognized_kind_renders_empty (t : Type_) :
  recognizedKind (Kind t) = false -> String_ t = OK "".
Proof.
  intros H. destruct t as [child package name kind results params key val dir].
  unfold recognizedKind, recognizedKinds in H. simpl in H.
  repeat (apply orb_false_elim in H; destruct H as [?H H]).
  simpl. unfold TypeKindStar, TypeKindIdent, TypeKindEllipsis, TypeKindArray,
    TypeKindMap, TypeKindSelector, TypeKindInterface, TypeKindFunc,
    TypeKindChan in *.
  repeat match goal with
         | E : String.eqb kind ?k = false |- _ => rewrite E; clear E
         end.
  reflexivity.
Qed.

Lemma unrecognized_kind_renders_empty_witness :
  String_ {| Child := None; Package := "p"; Name := "T"; Kind := "generic";
             Results := [None]; Params := []; mapKeyType := None;
             mapValType := None; chanDir := 0 |} = OK "".
Proof. apply unrecognized_kind_renders_empty. reflexivity. Defined.

(** ** Function types *)

Lemma mapM_rendersParam (l : list (option Param)) (ss : list string) :
  Forall2 rendersParam l ss -> mapM (callParamString String_) l = OK ss.
Proof.
  induction 1 as [|p s l ss (pa & ty & -> & Hty & Hs) _ IH]; [reflexivity|].
  simpl. rewrite Hty. simpl. rewrite Hs. simpl. rewrite IH. reflexivity.
Qed.

(** C2: a function type renders as [func(], the renderings of the parameter
    types joined by commas, [) ] and the result segment: nothing for no
    result, the one rendering without parentheses for one result, the
    renderings joined by commas inside parentheses for two or more. *)
Theorem func_rendering (t : Type_) (ps rs : list string) :
  Kind t = TypeKindFunc ->
  Forall2 rendersParam (Params t) ps ->
  Forall2 rendersParam (Results t) rs ->
  String_ t = OK ("func(" ++ Join ps ", " ++ ") " ++ resultSegment rs)
  /\ (Results t = [] -> resultSegment rs = "")
  /\ (forall r, Results t = [r] ->
        exists s, rendersParam r s /\ resultSegment rs = s)
  /\ (2 <= length (Results t) ->
        resultSegment rs = "(" ++ Join rs ", " ++ ")").
Proof.
  intros Hk Hps Hrs. split; [|split; [|split]].
  - rewrite (String_func t Hk).
    rewrite (mapM_rendersParam _ _ Hps), (mapM_rendersParam _ _ Hrs). simpl.
    destruct rs as [|r [|r' rs']]; simpl.
    + apply (f_equal OK), Sprintf_func_plain.
    + apply (f_equal OK), Sprintf_func_plain.
    + apply (f_equal OK), Sprintf_func_parens.
  - intros E. rewrite E in Hrs. inversion Hrs. reflexivity.
  - intros r E. rewrite E in Hrs. inversion Hrs as [|? s ? ? Hr Hnil]; subst.
    inversion Hnil; subst. exists s. split; [exact Hr | reflexivity].
  - intros Hlen. apply Forall2_length in Hrs.
    destruct rs as [|r [|r' rs']]; simpl in *; try lia. reflexivity.
Qed.

Lemma func_rendering_witness :
  String_ {| Child := None; Package := ""; Name := ""; Kind := TypeKindFunc;
             Results := [Some (mkParam "" (Some (identType "" "int")));
                         Some (mkParam "err" (Some (identType "" "error")))];
             Params := [Some (mkParam "n" (Some (identType "" "int")))];
             mapKeyType := None; mapValType := None; chanDir := 0 |}
  = OK "func(int) (int, error)".
Proof.
  refine (proj1 (func_rendering _ ["int"] ["int"; "error"] _ _ _)).
  - reflexivity.
  - repeat constructor. eexists _, _. repeat split; reflexivity.
  - repeat constructor; eexists _, _; repeat split; reflexivity.
Defined.

(** ** Channels *)

(** C7: the parser stores the direction of a channel node as it is, and a
    channel type renders by its stored direction alone: [chan T] when it is
    bidirectional, [<-chan T] when receive-only, [chan<- T] when
    send-only, [T] being the rendering of the child. *)
Theorem chan_direction_rendering
    (typesMap : gset string) (pkg : string) (dir : Z) (value : Node)
    (c : Type_) (s : string) :
  ParseType typesMap pkg value = OK c ->
  String_ c = OK s ->
  ParseType typesMap pkg (ChanType dir value) = OK (chanType dir c)
  /\ forall t, Kind t = TypeKindChan -> Child t = Some c ->
       (chanDir t = Z.lor SEND RECV -> String_ t = OK ("chan " ++ s))
       /\ (chanDir t = RECV -> String_ t = OK ("<-chan " ++ s))
       /\ (chanDir t = SEND -> String_ t = OK ("chan<- " ++ s)).
Proof.
  intros Hc Hs. split.
  - simpl. rewrite Hc. reflexivity.
  - intros t Hk Hchild. rewrite (String_chan t Hk), Hchild. simpl.
    rewrite Hs. simpl.
    repeat split; intros ->; simpl; apply (f_equal OK);
      [apply Sprintf_chan | apply Sprintf_chan_recv | apply Sprintf_chan_send].
Qed.

Lemma chan_direction_rendering_witness :
  ParseType ∅ "out" (ChanType RECV (Ident "int"))
  = OK (chanType RECV (identType "" "int"))
  /\ String_ (chanType RECV (identType "" "int")) = OK "<-chan int".
Proof.
  assert (Hp : ParseType ∅ "out" (Ident "int") = OK (identType "" "int"))
    by reflexivity.
  assert (Hs : String_ (identType "" "int") = OK "int") by reflexivity.
  destruct (chan_direction_rendering ∅ "out" RECV _ _ _ Hp Hs) as [Hparse Hr].
  split; [exact Hparse|].
  apply (Hr (chanType RECV (identType "" "int"))); reflexivity.
Defined.

(** ** Identifiers and qualified references *)

Lemma ParseType_Ident (typesMap : gset string) (pkg name : string) :
  ParseType typesMap pkg (Ident name)
  = OK (identType (if bool_decide (name ∈ typesMap) then pkg else "") name).
Proof. reflexivity. Qed.

(** The case of a function type as [type.go] writes it, with [ParseMany]
    applied to what [extractList] gives. *)
Lemma ParseType_FuncType
    (typesMap : gset string) (pkg : string) (ps rs : option (list Field)) :
  ParseType typesMap pkg (FuncType ps rs)
  = params ← ParseMany typesMap pkg (extractList ps);
    results ← ParseMany typesMap pkg (extractList rs);
    OK {| Child := None; Package := ""; Name := ""; Kind := TypeKindFunc;
          Results := results; Params := params;
          mapKeyType := None; mapValType := None; chanDir := 0 |}.
Proof. destruct ps, rs; reflexivity. Qed.

(** C1, as the code has it: a bare identifier parses to an [Identifier]
    with its name.  When the name is in the set of local types, [Package]
    is the destination package [pkg], and the rendering is [pkg.Name]
    provided [pkg] is not empty; with an empty [pkg] it is [Name].  When
    the name is not in the set, [Package] is empty and the rendering is
    [Name]. *)
Theorem ident_qualification
    (typesMap : gset string) (pkg name : string) :
  exists t,
    ParseType typesMap pkg (Ident name) = OK t
    /\ Kind t = TypeKindIdent /\ Name t = name
    /\ (name ∈ typesMap ->
        Package t = pkg
        /\ (pkg <> "" -> String_ t = OK (pkg ++ "." ++ name))
        /\ (pkg = "" -> String_ t = OK name))
    /\ (name ∉ typesMap -> Package t = "" /\ String_ t = OK name).
Proof.
  eexists. split; [apply ParseType_Ident|].
  split; [reflexivity|]. split; [reflexivity|]. split.
  - intros Hin. rewrite (bool_decide_eq_true_2 _ Hin).
    split; [reflexivity|]. split.
    + intros Hne. rewrite String_ident by reflexivity. simpl.
      destruct (String.eqb_spec pkg ""); [contradiction|].
      apply (f_equal OK), Sprintf_qualified.
    + intros ->. reflexivity.
  - intros Hnot. rewrite (bool_decide_eq_false_2 _ Hnot).
    split; reflexivity.
Qed.

Lemma ident_qualification_witness :
  exists t,
    ParseType {["Foo"]} "out" (Ident "Foo") = OK t
    /\ Package t = "out" /\ String_ t = OK "out.Foo".
Proof.
  destruct (ident_qualification {["Foo"]} "out" "Foo")
    as (t & Hp & _ & _ & Hin & _).
  exists t. split; [exact Hp|].
  destruct Hin as (Hpkg & Hr & _); [set_solver|].
  split; [exact Hpkg | apply Hr; discriminate].
Defined.

(** C1 as stated fails when the destination package name is empty: [Foo]
    is in the set of local types, [Package] is the (empty) destination
    package, and the rendering is [Foo], not [.Foo]. *)
Lemma ident_empty_package_counterexample :
  "Foo" ∈ ({["Foo"]} : gset string)
  /\ ParseType {["Foo"]} "" (Ident "Foo") = OK (identType "" "Foo")
  /\ String_ (identType "" "Foo") = OK "Foo"
  /\ String_ (identType "" "Foo") <> OK ("" ++ "." ++ "Foo").
Proof.
  split; [set_solver|]. split; [reflexivity|]. split; [reflexivity|].
  discriminate.
Qed.

(** C4: a qualified reference [X.Y], [X] being an identifier, whose name
    like that of every identifier of a parsed source is not empty, parses
    to a [Selector] with [Name] [Y] and [Package] the name of [X]; every
    [Selector] renders as [Package.Name]; and the [Package] of the parsed
    one is not empty. *)
Theorem selector_parse_and_render
    (typesMap : gset string) (pkg x y : string) :
  x <> "" ->
  exists t,
    ParseType typesMap pkg (SelectorExpr (Ident x) y) = OK t
    /\ Kind t = TypeKindSelector /\ Name t = y /\ Package t = x
    /\ Package t <> ""
    /\ String_ t = OK (x ++ "." ++ y)
    /\ forall t', Kind t' = TypeKindSelector ->
         String_ t' = OK (Package t' ++ "." ++ Name t').
Proof.
  intros Hx.
  assert (Hrender : forall t', Kind t' = TypeKindSelector ->
                      String_ t' = OK (Package t' ++ "." ++ Name t')).
  { intros t' Hk. rewrite (String_selector t' Hk).
    apply (f_equal OK), Sprintf_qualified. }
  exists (selectorType x y). split; [reflexivity|].
  split; [reflexivity|]. split; [reflexivity|]. split; [reflexivity|].
  split; [exact Hx|]. split; [|exact Hrender].
  exact (Hrender (selectorType x y) eq_refl).
Qed.

Lemma selector_parse_and_render_witness :
  exists t,
    ParseType {["Baz"]} "out" (SelectorExpr (Ident "pkg") "Baz") = OK t
    /\ Package t = "pkg" /\ Package t <> "" /\ String_ t = OK "pkg.Baz".
Proof.
  destruct (selector_parse_and_render {["Baz"]} "out" "pkg" "Baz")
    as (t & Hp & _ & _ & Hpkg & Hne & Hs & _); [discriminate|].
  exists t. split; [exact Hp|]. split; [exact Hpkg|].
  split; [exact Hne | exact Hs].
Defined.

(** ** Interfaces *)

(** C3, as the code has it: an interface node parses to the [AnyInterface]
    type whether or not it declares methods; the methods are dropped, no
    fault is raised, and the type renders as [interface{}]. *)
Theorem interface_parses_to_any
    (typesMap : gset string) (pkg : string) (methods : option (list Field)) :
  ParseType typesMap pkg (InterfaceType methods) = OK interfaceType
  /\ String_ interfaceType = OK "interface{}".
Proof. split; reflexivity. Qed.

(** C3 as stated fails: the interface that declares the method
    [Close() error] is parsed without a fault, to the same type as the
    empty interface. *)
Lemma nonempty_interface_counterexample :
  ParseType ∅ "out"
    (InterfaceType
       (Some [mkField ["Close"]
                (FuncType (Some []) (Some [mkField [] (Ident "error")]))]))
  = OK interfaceType
  /\ ~ (exists msg,
         ParseType ∅ "out"
           (InterfaceType
              (Some [mkField ["Close"]
                       (FuncType (Some [])
                                 (Some [mkField [] (Ident "error")]))]))
         = Panic msg).
Proof. split; [reflexivity|]. intros [msg H]. discriminate H. Qed.

(** ** Unsupported nodes *)

(** C5: on a node whose shape is none of the nine that the parser has a
    case for, [ParseType] panics, naming the dynamic type of the node, and
    returns no [Type]. *)
Theorem unsupported_node_panics
    (typesMap : gset string) (pkg : string) (node : Node) :
  supportedShape node = false ->
  ParseType typesMap pkg node = Panic ("unhandled type " ++ dynamicType node)
  /\ forall t, ParseType typesMap pkg node <> OK t.
Proof.
  intros H.
  assert (E : ParseType typesMap pkg node
              = Panic ("unhandled type " ++ dynamicType node))
    by (destruct node; try discriminate H; reflexivity).
  split; [exact E|]. intros t. rewrite E. discriminate.
Qed.

Lemma unsupported_node_panics_witness :
  ParseType ∅ "out" (OtherNode "*ast.StructType" [FieldListNode []])
  = Panic "unhandled type *ast.StructType".
Proof.
  apply (unsupported_node_panics ∅ "out"
           (OtherNode "*ast.StructType" [FieldListNode []])).
  reflexivity.
Defined.

(** ** The invariants of parsed types *)

Lemma invariantsHold_eq (t : Type_) :
  invariantsHold t =
  implb (String.eqb (Kind t) TypeKindMap)
        (bool_decide (is_Some (mapKeyType t))
         && bool_decide (is_Some (mapValType t)))
  && implb (needsChild (Kind t)) (bool_decide (is_Some (Child t)))
  && match Child t with Some c => invariantsHold c | None => true end
  && match mapKeyType t with Some c => invariantsHold c | None => true end
  && match mapValType t with Some c => invariantsHold c | None => true end
  && forallb (paramInvariants invariantsHold) (Params t)
  && forallb (paramInvariants invariantsHold) (Results t).
Proof. now destruct t. Qed.

Lemma list_sum_In_le (A : Type) (f : A -> nat) (l : list A) (a : A) :
  In a l -> f a <= list_sum (map f l).
Proof.
  induction l as [|b l IH]; simpl; [tauto|].
  intros [->|H]; [lia | specialize (IH H); lia].
Qed.

Section ParseManyInvariants.
Variable parse : Node -> result Type_.

Lemma parseField_invariants (fld : Field) (ps : list (option Param)) :
  (forall t, parse (FieldType fld) = OK t -> invariantsHold t = true) ->
  parseField parse fld = OK ps ->
  forallb (paramInvariants invariantsHold) ps = true.
Proof.
  intros Hp. unfold parseField.
  destruct (parse (FieldType fld)) as [t|msg] eqn:E.
  - specialize (Hp t eq_refl).
    assert (Hnames : forall names qs,
               mapM (fun name : string =>
                       t ← @OK Type_ t; OK (Some (mkParam name (Some t))))
                    names = OK qs ->
               forallb (paramInvariants invariantsHold) qs = true).
    { induction names as [|n names IH]; simpl; intros qs H.
      - now inversion H.
      - destruct (mapM _ names) as [qs'|]; simpl in H; [|discriminate].
        inversion H; subst. simpl. rewrite Hp. now apply IH. }
    destruct (Names fld) as [|n names].
    + simpl. intros H. inversion H; subst. simpl. now rewrite Hp.
    + apply Hnames.
  - destruct (Names fld) as [|n names]; simpl; discriminate.
Qed.

Lemma ParseManyWith_invariants
    (fields : list Field) (ps : list (option Param)) :
  (forall fld t, In fld fields -> parse (FieldType fld) = OK t ->
                 invariantsHold t = true) ->
  ParseManyWith parse fields = OK ps ->
  forallb (paramInvariants invariantsHold) ps = true.
Proof.
  unfold ParseManyWith. revert ps.
  induction fields as [|fld fields IH]; intros ps Hp H.
  - simpl in H. now inversion H.
  - simpl in H.
    destruct (parseField parse fld) as [qs|] eqn:Ef; simpl in H;
      [|discriminate].
    destruct (mapM (parseField parse) fields) as [qss|] eqn:Em;
      simpl in H; [|discriminate].
    inversion H; subst. simpl. rewrite forallb_app.
    rewrite (parseField_invariants fld qs); simpl.
    + apply IH; [|reflexivity]. intros f t Hin. apply Hp. now right.
    + intros t. apply Hp. now left.
    + exact Ef.
Qed.
End ParseManyInvariants.

Section ParsedInvariants.
Variable typesMap : gset string.
Variable pkg : string.

Lemma ParseManyOf_invariants
    (fl : option (list Field)) (ps : list (option Param)) :
  (forall fld t, In fld (extractList fl) ->
                 ParseType typesMap pkg (FieldType fld) = OK t ->
                 invariantsHold t = true) ->
  ParseManyOf (ParseType typesMap pkg) fl = OK ps ->
  forallb (paramInvariants invariantsHold) ps = true.
Proof.
  destruct fl as [l|]; simpl; intros Hp H.
  - exact (ParseManyWith_invariants (ParseType typesMap pkg) l ps Hp H).
  - now inversion H.
Qed.

Lemma size_field_type (fl : option (list Field)) (fld : Field) :
  In fld (extractList fl) ->
  size (FieldType fld)
  < match fl with
    | Some l => S (list_sum (map sizeField l))
    | None => 0
    end.
Proof.
  destruct fl as [l|]; simpl; [|tauto]. intros Hin.
  pose proof (list_sum_In_le _ sizeField l fld Hin) as Hle.
  destruct fld as [names type]. simpl in *. lia.
Qed.

Lemma ParseType_invariants_bounded (n : nat) :
  forall node t, size node < n ->
    ParseType typesMap pkg node = OK t -> invariantsHold t = true.
Proof.
  induction n as [|n IH]; intros node t Hsize H; [lia|].
  destruct node as
    [|name|X Sel|Elt|X|ps rs|Len Elt|Key Value|ms|dir Value|name type
     |name decls|l|fld|dyn cs];
    simpl in H; try discriminate H.
  - now inversion H.
  - now inversion H.
  - destruct (ParseType typesMap pkg Elt) as [c|] eqn:E; simpl in H;
      [|discriminate].
    inversion H; subst. simpl in Hsize. simpl.
    rewrite (IH Elt c); [reflexivity | lia | exact E].
  - destruct (ParseType typesMap pkg X) as [c|] eqn:E; simpl in H;
      [|discriminate].
    inversion H; subst. simpl in Hsize. simpl.
    rewrite (IH X c); [reflexivity | lia | exact E].
  - destruct (ParseManyOf (ParseType typesMap pkg) ps) as [ps'|] eqn:Ep;
      simpl in H; [|discriminate].
    destruct (ParseManyOf (ParseType typesMap pkg) rs) as [rs'|] eqn:Er;
      simpl in H; [|discriminate].
    inversion H; subst. simpl in Hsize. rewrite invariantsHold_eq. simpl.
    rewrite (ParseManyOf_invariants ps ps'),
      (ParseManyOf_invariants rs rs');
      try assumption; try reflexivity.
    + intros fld t Hin. apply IH.
      pose proof (size_field_type rs fld Hin). lia.
    + intros fld t Hin. apply IH.
      pose proof (size_field_type ps fld Hin). lia.
  - destruct (ParseType typesMap pkg Elt) as [c|] eqn:E; simpl in H;
      [|discriminate].
    inversion H; subst. simpl in Hsize. simpl.
    rewrite (IH Elt c); [reflexivity | lia | exact E].
  - destruct (ParseType typesMap pkg Key) as [k|] eqn:Ek; simpl in H;
      [|discriminate].
    destruct (ParseType typesMap pkg Value) as [v|] eqn:Ev; simpl in H;
      [|discriminate].
    inversion H; subst. simpl in Hsize. simpl.
    rewrite (IH Key k), (IH Value v);
      first [reflexivity | lia | assumption].
  - now inversion H.
  - destruct (ParseType typesMap pkg Value) as [c|] eqn:E; simpl in H;
      [|discriminate].
    inversion H; subst. simpl in Hsize. simpl.
    rewrite (IH Value c); [reflexivity | lia | exact E].
Qed.
End ParsedInvariants.

(** C8: every [Type] that [ParseType] returns satisfies the invariants of
    the model, at its root and in every type below it: a map has its key
    and its value type, and a pointer, slice, variadic or channel type has
    its child. *)
Theorem parsed_type_invariants
    (typesMap : gset string) (pkg : string) (node : Node) (t : Type_) :
  ParseType typesMap pkg node = OK t ->
  invariantsHold t = true
  /\ (Kind t = TypeKindMap ->
      is_Some (mapKeyType t) /\ is_Some (mapValType t))
  /\ (Kind t = TypeKindStar \/ Kind t = TypeKindArray
      \/ Kind t = TypeKindEllipsis \/ Kind t = TypeKindChan ->
      is_Some (Child t)).
Proof.
  intros H.
  assert (Hinv : invariantsHold t = true)
    by (apply (ParseType_invariants_bounded typesMap pkg (S (size node)) node);
        [lia | exact H]).
  split; [exact Hinv|].
  rewrite invariantsHold_eq in Hinv.
  repeat (apply andb_prop in Hinv; destruct Hinv as [Hinv ?]).
  split.
  - intros Hk. rewrite Hk in Hinv. simpl in Hinv.
    apply andb_prop in Hinv. destruct Hinv as [Hkey Hval].
    split; [exact (bool_decide_eq_true_1 _ Hkey)
           | exact (bool_decide_eq_true_1 _ Hval)].
  - intros Hk.
    assert (Hn : needsChild (Kind t) = true)
      by (destruct Hk as [-> | [-> | [-> | ->]]]; reflexivity).
    match goal with
    | Hc : implb (needsChild _) _ = true |- _ =>
        rewrite Hn in Hc; exact (bool_decide_eq_true_1 _ Hc)
    end.
Qed.

Lemma parsed_type_invariants_witness :
  exists t,
    ParseType {["Foo"]} "out"
      (MapType (Ident "string")
         (FuncType (Some [mkField ["a"; "b"] (StarExpr (Ident "Foo"))])
                   None)) = OK t
    /\ invariantsHold t = true.
Proof.
  destruct (ParseType {["Foo"]} "out"
              (MapType (Ident "string")
                 (FuncType (Some [mkField ["a"; "b"] (StarExpr (Ident "Foo"))])
                           None))) as [t|msg] eqn:E.
  - exists t. split; [reflexivity|].
    exact (proj1 (parsed_type_invariants _ _ _ _ E)).
  - discriminate E.
Defined.

(** ** The traversal *)

Lemma size_children (node c : Node) :
  In c (children node) -> size c < size node.
Proof.
  destruct node as
    [|name|X Sel|Elt|X|ps rs|Len Elt|Key Value|ms|dir Value|name type
     |name decls|l|fld|dyn cs];
    simpl; try tauto.
  - intros [<-|[<-|[]]]; simpl; lia.
  - intros [<-|[]]; lia.
  - intros [<-|[]]; lia.
  - destruct ps as [ps|], rs as [rs|]; simpl;
      intros H; repeat (destruct H as [<-|H]; [simpl; lia|]); destruct H.
  - intros [<-|[<-|[]]]; lia.
  - intros [<-|[<-|[]]]; lia.
  - destruct ms as [ms|]; simpl; [|tauto]. intros [<-|[]]. simpl. lia.
  - intros [<-|[]]; lia.
  - intros [<-|[<-|[]]]; simpl; lia.
  - intros [<-|H]; [simpl; lia|].
    pose proof (list_sum_In_le _ size decls c H). lia.
  - intros H. apply in_map_iff in H. destruct H as (fld & <- & H).
    pose proof (list_sum_In_le _ sizeField l fld H). simpl. lia.
  - destruct fld as [names type]. simpl. intros H.
    apply in_app_or in H. destruct H as [H|[<-|[]]]; [|lia].
    apply in_map_iff in H. destruct H as (name & <- & _). simpl. lia.
  - intros H. pose proof (list_sum_In_le _ size cs c H). lia.
Qed.

Section InspectChildren.
Context {S : Type}.
Variable f : Node -> S -> bool * S.

Lemma inspectIdents_fold (names : list string) (s : S) :
  inspectIdents f names s
  = fold_left (fun s c => Inspect f c s) (map Ident names) s.
Proof.
  unfold inspectIdents. revert s.
  induction names as [|n names IH]; intros s; simpl; [reflexivity|].
  apply IH.
Qed.

Lemma InspectField_fold (l : list Field) (s : S) :
  fold_left (fun s fld => InspectField f fld s) l s
  = fold_left (fun s c => Inspect f c s) (map FieldNode l) s.
Proof.
  revert s. induction l as [|fld l IH]; intros s; simpl; [reflexivity|].
  apply IH.
Qed.

(** [Inspect] on a node that is not nil: [f] on the node, then the
    children in order, then [f] on nil. *)
Lemma Inspect_children (node : Node) (s : S) :
  node <> NilNode ->
  Inspect f node s
  = visit f node
      (fun s => fold_left (fun s c => Inspect f c s) (children node) s) s.
Proof.
  intros Hnil.
  destruct node as
    [|name|X Sel|Elt|X|ps rs|Len Elt|Key Value|ms|dir Value|name type
     |name decls|l|fld|dyn cs];
    try reflexivity.
  - contradiction.
  - destruct ps as [ps|], rs as [rs|]; simpl; unfold visit;
      destruct (f _ s) as [[|] s1]; try reflexivity.
  - destruct ms as [ms|]; reflexivity.
  - simpl. unfold visit. destruct (f _ s) as [[|] s1]; [|reflexivity].
    now rewrite InspectField_fold.
  - destruct fld as [names type]. simpl. unfold visit.
    destruct (f _ s) as [[|] s1]; [|reflexivity].
    now rewrite fold_left_app, inspectIdents_fold.
Qed.
End InspectChildren.

Lemma contains_inv (node m : Node) :
  contains node m <->
  (node = m /\ node <> NilNode)
  \/ exists c, In c (children node) /\ contains c m.
Proof.
  split.
  - intros H. destruct H as [node Hn | node c m Hin Hc]; [left|right]; eauto.
  - intros [[<- Hn] | (c & Hin & Hc)].
    + now apply contains_self.
    + now apply contains_child with c.
Qed.

Section Collect.
Variable IsExported : string -> bool.

Lemma collectType_more (node : Node) (types : list string) :
  fst (collectType IsExported node types) = true.
Proof.
  destruct node as
    [|name|X Sel|Elt|X|ps rs|Len Elt|Key Value|ms|dir Value|name type
     |name decls|l|fld|dyn cs];
    try reflexivity.
  simpl. now destruct (IsExported name).
Qed.

Lemma collectType_In (node : Node) (types : list string) (x : string) :
  In x (snd (collectType IsExported node types))
  <-> In x types
      \/ (IsExported x = true /\ exists type, node = TypeSpec x type).
Proof.
  destruct node as
    [|name|X Sel|Elt|X|ps rs|Len Elt|Key Value|ms|dir Value|name type
     |name decls|l|fld|dyn cs];
    try (simpl; split; [now left | intros [H | (_ & ty & H)];
                                   [exact H | discriminate H]]).
  simpl. destruct (IsExported name) eqn:E; simpl.
  - rewrite in_app_iff. simpl. split.
    + intros [H | [<- | []]]; [now left | right]. split; [exact E | eauto].
    + intros [H | (_ & ty & H)]; [now left | right].
      inversion H. now left.
  - split; [now left|]. intros [H | (Ex & ty & H)]; [exact H|].
    inversion H; subst. congruence.
Qed.

Lemma fold_Inspect_In (cs : list Node) :
  (forall c, In c cs -> forall s x,
      In x (Inspect (collectType IsExported) c s)
      <-> In x s \/ declares IsExported c x) ->
  forall s x,
    In x (fold_left (fun s c => Inspect (collectType IsExported) c s) cs s)
    <-> In x s \/ exists c, In c cs /\ declares IsExported c x.
Proof.
  induction cs as [|c cs IH]; intros Hcs s x; simpl.
  - split; [now left | intros [H | (c & [] & _)]; exact H].
  - rewrite IH by (intros c' Hin; apply Hcs; now right).
    rewrite (Hcs c) by now left. split.
    + intros [[H | H] | (c' & Hin & H)]; eauto.
    + intros [H | (c' & [<- | Hin] & H)]; eauto.
Qed.

Lemma Inspect_collect_bounded (n : nat) :
  forall node, size node < n -> forall s x,
    In x (Inspect (collectType IsExported) node s)
    <-> In x s \/ declares IsExported node x.
Proof.
  induction n as [|n IH]; intros node Hsize s x; [lia|].
  assert (Hcase : node = NilNode \/ node <> NilNode)
    by (destruct node; (now left) || (right; discriminate)).
  destruct Hcase as [-> | Hnil].
  - simpl. split; [now left|]. intros [H | (_ & ty & H)]; [exact H|].
    apply contains_inv in H. destruct H as [[H _] | (c & [] & _)].
    discriminate H.
  - rewrite Inspect_children by exact Hnil. unfold visit.
    pose proof (collectType_more node s) as Hmore.
    pose proof (collectType_In node s x) as Hin.
    destruct (collectType IsExported node s) as [more s1].
    simpl in Hmore, Hin. subst more.
    replace (snd (collectType IsExported NilNode
               (fold_left (fun s c => Inspect (collectType IsExported) c s)
                          (children node) s1)))
      with (fold_left (fun s c => Inspect (collectType IsExported) c s)
                      (children node) s1) by reflexivity.
    rewrite fold_Inspect_In.
    + rewrite Hin. unfold declares. split.
      * intros [[H | (Ex & ty & ->)] | (c & Hc & Ex & ty & H)].
        -- now left.
        -- right. split; [exact Ex|]. exists ty. now apply contains_self.
        -- right. split; [exact Ex|]. exists ty.
           now apply contains_child with c.
      * intros [H | (Ex & ty & H)]; [now left; left|].
        apply contains_inv in H.
        destruct H as [[-> _] | (c & Hc & H)].
        -- left. right. eauto.
        -- right. exists c. eauto.
    + intros c Hc. apply IH. pose proof (size_children node c Hc). lia.
Qed.

(** What [parseTypesFromFile] returns: the names of the exported type
    declarations of the tree, and nothing else. *)
Lemma parseTypesFromFile_In (fileAst : Node) (x : string) :
  In x (parseTypesFromFile IsExported fileAst)
  <-> declares IsExported fileAst x.
Proof.
  unfold parseTypesFromFile.
  rewrite (Inspect_collect_bounded (S (size fileAst))) by lia.
  simpl. tauto.
Qed.
End Collect.

(** ** The set of local types *)

(** C10: [parseTypesFromFile] returns the names of the exported type
    declarations of the file and no other name.  So when the set of local
    types holds only names that it returned for some file, a name that is
    not exported is not in the set, and the identifier of that name parses
    with an empty [Package] and renders bare. *)
Theorem local_types_are_exported_declarations
    (IsExported : string -> bool) (files : list Node)
    (typesMap : gset string) (pkg name : string) :
  (forall y, y ∈ typesMap ->
     exists fileAst, In fileAst files
                     /\ In y (parseTypesFromFile IsExported fileAst)) ->
  IsExported name = false ->
  (forall fileAst x,
     In x (parseTypesFromFile IsExported fileAst)
     <-> IsExported x = true
         /\ exists type, contains fileAst (TypeSpec x type))
  /\ (forall fileAst, In name (parseTypesFromFile IsExported fileAst) -> False)
  /\ (name ∉ typesMap)
  /\ ParseType typesMap pkg (Ident name) = OK (identType "" name)
  /\ String_ (identType "" name) = OK name.
Proof.
  intros Hbuilt Hname.
  assert (Hnot : forall fileAst,
             ~ In name (parseTypesFromFile IsExported fileAst)).
  { intros fileAst Hin. apply parseTypesFromFile_In in Hin.
    destruct Hin as [Ex _]. congruence. }
  assert (Hout : name ∉ typesMap).
  { intros Hin. destruct (Hbuilt name Hin) as (fileAst & _ & H).
    exact (Hnot fileAst H). }
  split; [intros fileAst x; apply parseTypesFromFile_In|].
  split; [exact Hnot|]. split; [exact Hout|]. split; [|reflexivity].
  rewrite ParseType_Ident. now rewrite (bool_decide_eq_false_2 _ Hout).
Qed.

Lemma local_types_are_exported_declarations_witness :
  parseTypesFromFile IsExportedASCII sampleFile = ["Foo"; "Local"]
  /\ ParseType {["Foo"; "Local"]} "out" (Ident "bar") = OK (identType "" "bar").
Proof.
  split; [reflexivity|].
  apply (local_types_are_exported_declarations
           IsExportedASCII [sampleFile] {["Foo"; "Local"]} "out" "bar").
  - intros y Hy. exists sampleFile. split; [now left|].
    apply elem_of_union in Hy. destruct Hy as [Hy | Hy];
      apply elem_of_singleton in Hy; subst y; simpl; tauto.
  - reflexivity.
Defined.

(** ** The renderer reads the heap and leaves it as it is *)

Lemma bindM_reads {A B} (m : M A) (k : A -> M B) (h : Heap)
    (r : result A) (k' : A -> result B) :
  m h = Some (r, h) ->
  (forall a, r = OK a -> k a h = Some (k' a, h)) ->
  bindM m k h = Some (r ≫= k', h).
Proof.
  intros Hm Hk. unfold bindM. rewrite Hm.
  destruct r as [a|msg]; [now apply Hk | reflexivity].
Qed.

Lemma depth_eq (t : Type_) :
  depth t =
  S (max (depthOpt depth (Child t))
      (max (depthOpt depth (mapKeyType t))
        (max (depthOpt depth (mapValType t))
          (max (list_max (map (depthParam depth) (Params t)))
               (list_max (map (depthParam depth) (Results t))))))).
Proof. now destruct t. Qed.

Lemma represents_eq (h : Heap) (t : Type_) (p : option loc) :
  represents h t p =
  match p with
  | None => False
  | Some l =>
      exists c, typeCells h !! l = Some c
        /\ cPackage c = Package t /\ cName c = Name t /\ cKind c = Kind t
        /\ cchanDir c = chanDir t
        /\ representsOpt (represents h) (Child t) (cChild c)
        /\ representsOpt (represents h) (mapKeyType t) (cmapKeyType c)
        /\ representsOpt (represents h) (mapValType t) (cmapValType c)
        /\ representsParams h (represents h) (Params t) (cParams c)
        /\ representsParams h (represents h) (Results t) (cResults c)
  end.
Proof. now destruct t. Qed.

Lemma String_eq (t : Type_) :
  String_ t =
  if String.eqb (Kind t) TypeKindStar then
    s ← callString String_ (Child t); OK ("*" ++ s)
  else if String.eqb (Kind t) TypeKindIdent then
    if String.eqb (Package t) "" then OK (Name t)
    else OK (Sprintf "%s.%s" [Package t; Name t])
  else if String.eqb (Kind t) TypeKindEllipsis then
    s ← callString String_ (Child t); OK (Sprintf "...%s" [s])
  else if String.eqb (Kind t) TypeKindArray then
    s ← callString String_ (Child t); OK (Sprintf "[]%s" [s])
  else if String.eqb (Kind t) TypeKindMap then
    k ← callString String_ (mapKeyType t);
    v ← callString String_ (mapValType t);
    OK (Sprintf "map[%s]%s" [k; v])
  else if String.eqb (Kind t) TypeKindSelector then
    OK (Sprintf "%s.%s" [Package t; Name t])
  else if String.eqb (Kind t) TypeKindInterface then
    OK "interface{}"
  else if String.eqb (Kind t) TypeKindFunc then
    params ← mapM (callParamString String_) (Params t);
    results ← mapM (callParamString String_) (Results t);
    OK (Sprintf ("func(%s) "
                 ++ (if Nat.ltb 1 (length results) then "(%s)" else "%s"))
          [Join params ", "; Join results ", "])
  else if String.eqb (Kind t) TypeKindChan then
    s ← callString String_ (Child t);
    OK (Sprintf (if Z.eqb (chanDir t) RECV then "<-chan %s"
                 else if Z.eqb (chanDir t) SEND then "chan<- %s"
                 else "chan %s") [s])
  else OK "".
Proof. now destruct t. Qed.

Section ReadsHeap.
Variable h : Heap.
Variable calls : nat.

(** The induction hypothesis: [calls] nested calls render every tree of a
  smaller depth. *)
Hypothesis IH : forall t p,
depth t < calls -> represents h t p ->
StringAt calls p h = Some (String_ t, h).

Lemma StringAt_opt (o : option Type_) (q : option loc) :
0 < calls -> depthOpt depth o < calls ->
representsOpt (represents h) o q ->
StringAt calls q h = Some (callString String_ o, h).
Proof.
intros Hpos Hd Hrep. destruct o as [c|]; simpl in *.
- now apply IH.
- subst q. destruct calls; [lia | reflexivity].
Qed.

Lemma paramStringAt_param (o : option Param) (q : option loc) :
0 < calls -> depthParam depth o < calls ->
representsParam h (represents h) o q ->
paramStringAt (StringAt calls) q h
= Some (callParamString String_ o, h).
Proof.
intros Hpos Hd Hrep. unfold paramStringAt, bindM.
destruct o as [pa|], q as [l|]; simpl in Hrep; try contradiction.
- destruct Hrep as (pc & Hpc & _ & Hty). simpl. rewrite Hpc.
  now apply StringAt_opt.
- reflexivity.
Qed.

Lemma mapMM_params (os : list (option Param)) (qs : list (option loc)) :
0 < calls -> list_max (map (depthParam depth) os) < calls ->
representsParams h (represents h) os qs ->
mapMM (paramStringAt (StringAt calls)) qs h
= Some (mapM (callParamString String_) os, h).
Proof.
intros Hpos. revert qs.
induction os as [|o os IHos]; intros [|q qs] Hd Hrep;
  simpl in Hrep; try contradiction; [reflexivity|].
destruct Hrep as [Ho Hos]. simpl in Hd.
change (mapMM (paramStringAt (StringAt calls)) (q :: qs) h)
  with (bindM (paramStringAt (StringAt calls) q)
          (fun b => bindM (mapMM (paramStringAt (StringAt calls)) qs)
                      (fun bs => retM (b :: bs))) h).
change (mapM (callParamString String_) (o :: os))
  with (callParamString String_ o ≫= fun b =>
        mapM (callParamString String_) os ≫= fun bs => OK (b :: bs)).
apply bindM_reads; [apply paramStringAt_param; [lia | lia | exact Ho]|].
intros b _. apply bindM_reads; [apply IHos; [lia | exact Hos]|].
reflexivity.
Qed.
End ReadsHeap.

Lemma StringAt_reads (h : Heap) (calls : nat) :
  forall t p, depth t < calls -> represents h t p ->
    StringAt calls p h = Some (String_ t, h).
Proof.
  induction calls as [|calls IH]; intros t p Hd Hrep; [lia|].
  rewrite represents_eq in Hrep. destruct p as [l|]; [|contradiction].
  destruct Hrep as (c & Hc & Hpkg & Hname & Hkind & Hdir & Hchild & Hkey
                    & Hval & Hps & Hrs).
  rewrite depth_eq in Hd.
  assert (Hpos : 0 < calls) by lia.
  assert (HdChild : depthOpt depth (Child t) < calls) by lia.
  assert (HdKey : depthOpt depth (mapKeyType t) < calls) by lia.
  assert (HdVal : depthOpt depth (mapValType t) < calls) by lia.
  assert (HdPs : list_max (map (depthParam depth) (Params t)) < calls) by lia.
  assert (HdRs : list_max (map (depthParam depth) (Results t)) < calls) by lia.
  clear Hd.
  pose proof (StringAt_opt h calls IH _ _ Hpos HdChild Hchild) as Echild.
  pose proof (StringAt_opt h calls IH _ _ Hpos HdKey Hkey) as Ekey.
  pose proof (StringAt_opt h calls IH _ _ Hpos HdVal Hval) as Eval.
  pose proof (mapMM_params h calls IH _ _ Hpos HdPs Hps) as Eps.
  pose proof (mapMM_params h calls IH _ _ Hpos HdRs Hrs) as Ers.
  rewrite String_eq. cbn [StringAt]. unfold bindM at 1. simpl loadType.
  rewrite Hc, Hkind, Hpkg, Hname, Hdir.
  repeat match goal with
         | |- context [if String.eqb (Kind t) ?k then _ else _] =>
             destruct (String.eqb (Kind t) k)
         end;
    try reflexivity;
    try (apply bindM_reads; [eassumption|]; intros; reflexivity).
  - destruct (String.eqb (Package t) ""); reflexivity.
  - apply bindM_reads; [eassumption|]. intros k _.
    apply bindM_reads; [eassumption|]. intros; reflexivity.
  - apply bindM_reads; [eassumption|]. intros ps _.
    apply bindM_reads; [eassumption|]. intros; reflexivity.
Qed.

(** C9: rendering is a function of the tree and of nothing else.  In the
    tree model [String_] is a function.  On the heap, the method called on
    an address that spells the tree [t] returns, given room for the nested
    calls, the value of [String_ t] and leaves the heap as it found it; a
    second call returns the same value; and so does a call on any other
    address, of any other heap, that spells the same tree. *)
Theorem rendering_is_pure
    (h h' : Heap) (p p' : option loc) (t : Type_) (calls calls' : nat) :
  represents h t p -> represents h' t p' ->
  depth t < calls -> depth t < calls' ->
  exists r : result string,
    r = String_ t
    /\ StringAt calls p h = Some (r, h)
    /\ StringAt calls' p h = Some (r, h)
    /\ StringAt calls' p' h' = Some (r, h').
Proof.
  intros Hrep Hrep' Hd Hd'. exists (String_ t).
  split; [reflexivity|].
  split; [now apply StringAt_reads|].
  split; now apply StringAt_reads.
Qed.

Lemma sampleHeap_represents :
  represents sampleHeap sampleTree (Some 1%positive).
Proof.
  simpl. eexists. split; [reflexivity|]. repeat split.
  - eexists. split; [reflexivity|]. split; [reflexivity|].
    simpl. eexists. split; [reflexivity|]. repeat split.
    simpl. eexists. split; [reflexivity|]. repeat split.
  - eexists. split; [reflexivity|]. split; [reflexivity|].
    simpl. eexists. split; [reflexivity|]. repeat split.
Defined.

Lemma sampleHeap'_represents :
  represents sampleHeap' sampleTree (Some 7%positive).
Proof.
  simpl. eexists. split; [reflexivity|]. repeat split.
  - eexists. split; [reflexivity|]. split; [reflexivity|].
    simpl. eexists. split; [reflexivity|]. repeat split.
    simpl. eexists. split; [reflexivity|]. repeat split.
  - eexists. split; [reflexivity|]. split; [reflexivity|].
    simpl. eexists. split; [reflexivity|]. repeat split.
Defined.

Lemma rendering_is_pure_witness :
  exists r : result string,
    r = OK "func(*Foo) error"
    /\ StringAt 4 (Some 1%positive) sampleHeap = Some (r, sampleHeap)
    /\ StringAt 9 (Some 1%positive) sampleHeap = Some (r, sampleHeap)
    /\ StringAt 9 (Some 7%positive) sampleHeap' = Some (r, sampleHeap').
Proof.
  destruct (rendering_is_pure sampleHeap sampleHeap' (Some 1%positive)
              (Some 7%positive) sampleTree 4 9
              sampleHeap_represents sampleHeap'_represents)
    as (r & Hr & H1 & H2 & H3).
  - vm_compute. lia.
  - vm_compute. lia.
  - exists r. split; [rewrite Hr; reflexivity|]. repeat split; assumption.
Defined.

(** ** Parsed types render *)

Lemma callString_defined (n : nat) (o : option Type_) :
  (forall t, depth t < n -> invariantsHold t = true ->
             exists s, String_ t = OK s) ->
  is_Some o ->
  match o with Some c => invariantsHold c | None => true end = true ->
  depthOpt depth o < n ->
  exists s, callString String_ o = OK s.
Proof.
  intros IH [c ->] Hinv Hd. simpl in *. now apply IH.
Qed.

Lemma mapM_params_defined (n : nat) (l : list (option Param)) :
  (forall t, depth t < n -> invariantsHold t = true ->
             exists s, String_ t = OK s) ->
  forallb (paramInvariants invariantsHold) l = true ->
  list_max (map (depthParam depth) l) < n ->
  exists ss, mapM (callParamString String_) l = OK ss.
Proof.
  intros IH. induction l as [|p l IHl]; intros Hinv Hd.
  - now exists [].
  - simpl in Hinv, Hd. apply andb_prop in Hinv. destruct Hinv as [Hp Hl].
    destruct IHl as [ss Hss]; [exact Hl | lia |].
    destruct p as [[name [ty|]]|]; simpl in Hp; try discriminate Hp.
    destruct (IH ty) as [s Hs]; [simpl in Hd; lia | exact Hp |].
    exists (s :: ss). simpl. rewrite Hs. simpl.
    change (mapM (callParamString String_) l ≫= (fun bs => OK (s :: bs))
            = OK (s :: ss)).
    now rewrite Hss.
Qed.

Lemma String_defined_bounded (n : nat) :
  forall t, depth t < n -> invariantsHold t = true ->
            exists s, String_ t = OK s.
Proof.
  induction n as [|n IH]; intros t Hd Hinv; [lia|].
  rewrite depth_eq in Hd. rewrite invariantsHold_eq in Hinv.
  repeat (apply andb_prop in Hinv; destruct Hinv as [Hinv ?]).
  assert (Hchild : needsChild (Kind t) = true ->
                   exists s, callString String_ (Child t) = OK s).
  { intros Hn.
    apply (callString_defined n); try assumption; [|lia].
    match goal with
    | Hc : implb (needsChild _) _ = true |- _ =>
        rewrite Hn in Hc; exact (bool_decide_eq_true_1 _ Hc)
    end. }
  rewrite String_eq. unfold needsChild in Hchild.
  destruct (String.eqb (Kind t) TypeKindStar) eqn:Estar.
  { destruct Hchild as [s ->]; [reflexivity|]. eauto. }
  destruct (String.eqb (Kind t) TypeKindIdent).
  { destruct (String.eqb (Package t) ""); eauto. }
  destruct (String.eqb (Kind t) TypeKindEllipsis) eqn:Eell.
  { destruct Hchild as [s ->]; [now rewrite orb_true_r|]. eauto. }
  destruct (String.eqb (Kind t) TypeKindArray) eqn:Earr.
  { destruct Hchild as [s ->]; [reflexivity|]. eauto. }
  destruct (String.eqb (Kind t) TypeKindMap) eqn:Emap.
  { simpl in Hinv. apply andb_prop in Hinv. destruct Hinv as [Hk Hv].
    destruct (callString_defined n (mapKeyType t)) as [k ->];
      try assumption; [exact (bool_decide_eq_true_1 _ Hk) | lia |].
    destruct (callString_defined n (mapValType t)) as [v ->];
      try assumption; [exact (bool_decide_eq_true_1 _ Hv) | lia |].
    eauto. }
  destruct (String.eqb (Kind t) TypeKindSelector); [eauto|].
  destruct (String.eqb (Kind t) TypeKindInterface); [eauto|].
  destruct (String.eqb (Kind t) TypeKindFunc).
  { destruct (mapM_params_defined n (Params t)) as [ps ->];
      try assumption; [lia|].
    destruct (mapM_params_defined n (Results t)) as [rs ->];
      try assumption; [lia|].
    eauto. }
  destruct (String.eqb (Kind t) TypeKindChan) eqn:Echan; [|eauto].
  destruct Hchild as [s ->]; [reflexivity|]. eauto.
Qed.

(** Rendering is defined on every type that the parser returns. *)
Lemma parsed_type_renders
    (typesMap : gset string) (pkg : string) (node : Node) (t : Type_) :
  ParseType typesMap pkg node = OK t -> exists s, String_ t = OK s.
Proof.
  intros H. apply (String_defined_bounded (S (depth t))); [lia|].
  apply (ParseType_invariants_bounded typesMap pkg (S (size node)) node);
    [lia | exact H].
Qed.

(** ** The examples of the specification *)

Example render_pointer :
  (t ← ParseType ∅ "out" (StarExpr (Ident "Foo")); String_ t) = OK "*Foo".
Proof. reflexivity. Qed.

Example render_slice :
  (t ← ParseType ∅ "out" (ArrayType NilNode (Ident "string"));
   String_ t)
  = OK "[]string".
Proof. reflexivity. Qed.

Example render_map :
  (t ← ParseType ∅ "out" (MapType (Ident "string") (Ident "int")); String_ t)
  = OK "map[string]int".
Proof. reflexivity. Qed.

Example render_variadic :
  (t ← ParseType ∅ "out" (Ellipsis (Ident "Bar")); String_ t) = OK "...Bar".
Proof. reflexivity. Qed.

Example render_channels :
  (t ← ParseType ∅ "out" (ChanType RECV (Ident "int")); String_ t)
  = OK "<-chan int"
  /\ (t ← ParseType ∅ "out" (ChanType SEND (Ident "int")); String_ t)
     = OK "chan<- int"
  /\ (t ← ParseType ∅ "out" (ChanType (Z.lor SEND RECV) (Ident "int"));
      String_ t)
     = OK "chan int".
Proof. repeat split. Qed.

Example render_qualification :
  (t ← ParseType {["Foo"]} "out" (Ident "Foo"); String_ t) = OK "out.Foo"
  /\ (t ← ParseType {["Foo"]} "out" (Ident "Bar"); String_ t) = OK "Bar"
  /\ (t ← ParseType {["Foo"]} "out" (SelectorExpr (Ident "pkg") "Baz");
      String_ t)
     = OK "pkg.Baz".
Proof. repeat split. Qed.

Example render_grouped_parameters :
  (t ← ParseType {["Foo"]} "out"
         (FuncType (Some [mkField ["a"; "b"] (Ident "Foo");
                          mkField ["rest"] (Ellipsis (Ident "int"))])
                   (Some [mkField [] (Ident "int");
                          mkField [] (Ident "error")]));
   String_ t)
  = OK "func(out.Foo, out.Foo, ...int) (int, error)".
Proof. reflexivity. Qed.

Example collect_sample_file :
  parseTypesFromFile IsExportedASCII sampleFile = ["Foo"; "Local"].
Proof. reflexivity. Qed.

(** * Further properties *)

(** ** When the parser returns and when it panics *)

Section ParseManyOutcome.
Variable parse : Node -> result Type_.

Lemma parseField_Panic (fld : Field) (msg : string) :
  parse (FieldType fld) = Panic msg -> parseField parse fld = Panic msg.
Proof.
  intros E. unfold parseField. destruct (Names fld) as [|n names]; simpl.
  - now rewrite E.
  - now rewrite E.
Qed.

Lemma parseField_OK (fld : Field) (t : Type_) :
  parse (FieldType fld) = OK t -> exists ps, parseField parse fld = OK ps.
Proof.
  intros E. unfold parseField. rewrite E.
  destruct (Names fld) as [|n names]; [simpl; eauto|].
  generalize (n :: names). intros l. induction l as [|a l [ps IH]].
  - now exists [].
  - exists (Some (mkParam a (Some t)) :: ps). simpl. simpl in IH.
    now rewrite IH.
Qed.

Lemma ParseManyWith_outcome (fields : list Field) :
  (exists ps, ParseManyWith parse fields = OK ps
              /\ forall fld, In fld fields ->
                             exists t, parse (FieldType fld) = OK t)
  \/ (exists fld msg, In fld fields /\ parse (FieldType fld) = Panic msg
                      /\ ParseManyWith parse fields = Panic msg).
Proof.
  unfold ParseManyWith. induction fields as [|fld fields IH].
  - left. exists []. split; [reflexivity | intros fld []].
  - destruct (parse (FieldType fld)) as [t|msg] eqn:E.
    + destruct (parseField_OK fld t E) as [qs Hqs].
      destruct IH as [(ps & Hps & Hall) | (f & msg & Hin & Hf & Hp)].
      * left. simpl. rewrite Hqs. simpl.
        destruct (mapM (parseField parse) fields) as [qss|] eqn:Em;
          simpl in Hps; [|discriminate].
        simpl. eexists. split; [reflexivity|].
        intros f [<- | Hin]; eauto.
      * right. exists f, msg. split; [now right|]. split; [exact Hf|].
        simpl. rewrite Hqs. simpl.
        destruct (mapM (parseField parse) fields) as [qss|] eqn:Em;
          simpl in Hp; [discriminate|].
        simpl. exact Hp.
    + right. exists fld, msg. split; [now left|]. split; [exact E|].
      simpl. now rewrite (parseField_Panic fld msg E).
Qed.

Lemma ParseManyOf_outcome (fl : option (list Field)) :
  (exists ps, ParseManyOf parse fl = OK ps
              /\ forall c, In c (fieldTypes fl) -> exists t, parse c = OK t)
  \/ (exists c msg, In c (fieldTypes fl) /\ parse c = Panic msg
                    /\ ParseManyOf parse fl = Panic msg).
Proof.
  assert (E : ParseManyOf parse fl = ParseManyWith parse (extractList fl))
    by now destruct fl.
  rewrite E. unfold fieldTypes.
  destruct (ParseManyWith_outcome (extractList fl))
    as [(ps & Hps & Hall) | (fld & msg & Hin & Hf & Hp)].
  - left. exists ps. split; [exact Hps|]. intros c Hc.
    apply in_map_iff in Hc. destruct Hc as (fld & <- & Hin). now apply Hall.
  - right. exists (FieldType fld), msg. split; [now apply in_map|]. eauto.
Qed.
End ParseManyOutcome.

Section ParseOutcome.
Variable typesMap : gset string.
Variable pkg : string.

Lemma size_typeChildren (node c : Node) :
  In c (typeChildren node) -> size c < size node.
Proof.
  destruct node as
    [|name|X Sel|Elt|X|ps rs|Len Elt|Key Value|ms|dir Value|name type
     |name decls|l|fld|dyn cs];
    simpl; try tauto.
  - intros [<-|[]]. lia.
  - intros [<-|[]]. lia.
  - intros H. apply in_app_or in H. unfold fieldTypes in H.
    destruct H as [H|H]; apply in_map_iff in H;
      destruct H as (fld & <- & Hin).
    + pose proof (size_field_type ps fld Hin). lia.
    + pose proof (size_field_type rs fld Hin). lia.
  - intros [<-|[]]. lia.
  - intros [<-|[<-|[]]]; lia.
  - intros [<-|[]]. lia.
Qed.

(** Either every call on a type child returns, and so does the call on the
    node when its shape is supported, or the panic of the first child that
    panics is the panic of the node. *)
Lemma ParseType_step (node : Node) :
  supportedShape node = true ->
  ((forall c, In c (typeChildren node) ->
              exists t, ParseType typesMap pkg c = OK t)
   /\ exists t, ParseType typesMap pkg node = OK t)
  \/ (exists c msg, In c (typeChildren node)
                    /\ ParseType typesMap pkg c = Panic msg
                    /\ ParseType typesMap pkg node = Panic msg).
Proof.
  destruct node as
    [|name|X Sel|Elt|X|ps rs|Len Elt|Key Value|ms|dir Value|name type
     |name decls|l|fld|dyn cs];
    intros Hs; try discriminate Hs; simpl.
  - left. split; [intros c []|eauto].
  - left. split; [intros c []|eauto].
  - destruct (ParseType typesMap pkg Elt) as [c|msg] eqn:E.
    + left. split; [intros c' [<-|[]]|]; eauto.
    + right. exists Elt, msg. auto.
  - destruct (ParseType typesMap pkg X) as [c|msg] eqn:E.
    + left. split; [intros c' [<-|[]]|]; eauto.
    + right. exists X, msg. auto.
  - destruct (ParseManyOf_outcome (ParseType typesMap pkg) ps)
      as [(ps' & Hps & Hall) | (c & msg & Hin & Hc & Hp)].
    + destruct (ParseManyOf_outcome (ParseType typesMap pkg) rs)
        as [(rs' & Hrs & Hall') | (c & msg & Hin & Hc & Hp)].
      * left. rewrite Hps, Hrs. simpl. split; [|eauto].
        intros c Hc. apply in_app_or in Hc. destruct Hc; auto.
      * right. exists c, msg. rewrite Hps, Hp. simpl.
        split; [apply in_or_app; now right | auto].
    + right. exists c, msg. rewrite Hp. simpl.
      split; [apply in_or_app; now left | auto].
  - destruct (ParseType typesMap pkg Elt) as [c|msg] eqn:E.
    + left. split; [intros c' [<-|[]]|]; eauto.
    + right. exists Elt, msg. auto.
  - destruct (ParseType typesMap pkg Key) as [k|msg] eqn:Ek.
    + destruct (ParseType typesMap pkg Value) as [v|msg] eqn:Ev.
      * left. split; [intros c' [<-|[<-|[]]]|]; eauto.
      * right. exists Value, msg. auto.
    + right. exists Key, msg. auto.
  - left. split; [intros c []|eauto].
  - destruct (ParseType typesMap pkg Value) as [c|msg] eqn:E.
    + left. split; [intros c' [<-|[]]|]; eauto.
    + right. exists Value, msg. auto.
Qed.

Lemma ParseType_unsupported (node : Node) :
  supportedShape node = false ->
  ParseType typesMap pkg node = Panic (unhandled node).
Proof. intros H. destruct node; try discriminate H; reflexivity. Qed.

Lemma ParseType_outcome_bounded (n : nat) :
  forall node, size node < n ->
    (exists t, ParseType typesMap pkg node = OK t)
    \/ (exists m, typePosition node m /\ supportedShape m = false
                  /\ ParseType typesMap pkg node = Panic (unhandled m)).
Proof.
  induction n as [|n IH]; intros node Hsize; [lia|].
  destruct (supportedShape node) eqn:Hs.
  - destruct (ParseType_step node Hs)
      as [[_ Hok] | (c & msg & Hin & Hc & Hnode)]; [now left|].
    right. destruct (IH c) as [[t Ht] | (m & Hm & Hsm & Hp)].
    + pose proof (size_typeChildren node c Hin). lia.
    + congruence.
    + exists m. split; [now apply typePosition_child with c|].
      split; [exact Hsm | congruence].
  - right. exists node. split; [apply typePosition_self|].
    split; [exact Hs | now apply ParseType_unsupported].
Qed.

Lemma ParseType_OK_positions (node m : Node) :
  typePosition node m ->
  forall t, ParseType typesMap pkg node = OK t -> supportedShape m = true.
Proof.
  induction 1 as [node | node c m Hin _ IH]; intros t Ht.
  - destruct (supportedShape node) eqn:Hs; [reflexivity|].
    rewrite (ParseType_unsupported node Hs) in Ht. discriminate Ht.
  - assert (Hs : supportedShape node = true).
    { destruct (supportedShape node) eqn:Hs; [reflexivity|].
      rewrite (ParseType_unsupported node Hs) in Ht. discriminate Ht. }
    destruct (ParseType_step node Hs)
      as [[Hall _] | (c' & msg & _ & _ & Hnode)]; [|congruence].
    destruct (Hall c Hin) as [t' Ht']. exact (IH t' Ht').
Qed.
End ParseOutcome.

(** X1: [ParseType] returns a [Type] exactly when every node in type
    position has one of the nine supported shapes, whatever the set of local
    types and the package; when it panics, its message names the dynamic
    type of a node in type position whose shape is not supported. *)
Theorem parse_outcome
    (typesMap : gset string) (pkg : string) (node : Node) :
  ((exists t, ParseType typesMap pkg node = OK t)
   <-> forall m, typePosition node m -> supportedShape m = true)
  /\ forall msg, ParseType typesMap pkg node = Panic msg ->
       exists m, typePosition node m /\ supportedShape m = false
                 /\ msg = "unhandled type " ++ dynamicType m.
Proof.
  pose proof (ParseType_outcome_bounded typesMap pkg (S (size node)) node)
    as Hout.
  split; [split|].
  - intros [t Ht] m Hm. exact (ParseType_OK_positions _ _ _ _ Hm t Ht).
  - intros Hall. destruct Hout as [Hok | (m & Hm & Hs & _)]; [lia | exact Hok |].
    rewrite (Hall m Hm) in Hs. discriminate Hs.
  - intros msg Hp. destruct Hout as [[t Ht] | (m & Hm & Hs & Hm')]; [lia | |].
    + congruence.
    + exists m. split; [exact Hm|]. split; [exact Hs|]. unfold unhandled in Hm'.
      congruence.
Qed.

(** ** What the set of local types and the package change *)

Lemma parseField_ext (parse1 parse2 : Node -> result Type_) (fld : Field) :
  parse1 (FieldType fld) = parse2 (FieldType fld) ->
  parseField parse1 fld = parseField parse2 fld.
Proof. intros E. unfold parseField. now rewrite E. Qed.

Lemma mapM_ext_In {A B} (f g : A -> result B) (l : list A) :
  (forall a, In a l -> f a = g a) -> mapM f l = mapM g l.
Proof.
  induction l as [|a l IH]; intros H; [reflexivity|].
  simpl. rewrite (H a) by now left.
  rewrite IH by (intros b Hb; apply H; now right). reflexivity.
Qed.

Lemma ParseManyOf_ext
    (parse1 parse2 : Node -> result Type_) (fl : option (list Field)) :
  (forall c, In c (fieldTypes fl) -> parse1 c = parse2 c) ->
  ParseManyOf parse1 fl = ParseManyOf parse2 fl.
Proof.
  intros H. destruct fl as [l|]; [|reflexivity].
  simpl. unfold ParseManyWith.
  rewrite (mapM_ext_In (parseField parse1) (parseField parse2) l);
    [reflexivity|].
  intros fld Hin. apply parseField_ext, H. unfold fieldTypes. simpl.
  now apply in_map.
Qed.

Lemma ParseType_qualifier_bounded
    (typesMap1 typesMap2 : gset string) (pkg1 pkg2 : string) (n : nat) :
  forall node, size node < n ->
    (forall name, typePosition node (Ident name) ->
       qualifier typesMap1 pkg1 name = qualifier typesMap2 pkg2 name) ->
    ParseType typesMap1 pkg1 node = ParseType typesMap2 pkg2 node.
Proof.
  induction n as [|n IH]; intros node Hsize Hq; [lia|].
  assert (Hc : forall c, In c (typeChildren node) ->
                 ParseType typesMap1 pkg1 c = ParseType typesMap2 pkg2 c).
  { intros c Hin. apply IH.
    - pose proof (size_typeChildren node c Hin). lia.
    - intros name Hp. apply Hq. now apply typePosition_child with c. }
  destruct node as
    [|name|X Sel|Elt|X|ps rs|Len Elt|Key Value|ms|dir Value|name type
     |name decls|l|fld|dyn cs];
    try reflexivity; simpl in Hc |- *.
  - pose proof (Hq name (typePosition_self _)) as E. unfold qualifier in E.
    unfold formatPackage. simpl. now rewrite E.
  - now rewrite (Hc Elt) by now left.
  - now rewrite (Hc X) by now left.
  - rewrite (ParseManyOf_ext (ParseType typesMap1 pkg1)
               (ParseType typesMap2 pkg2) ps)
      by (intros c Hin; apply Hc, in_or_app; now left).
    rewrite (ParseManyOf_ext (ParseType typesMap1 pkg1)
               (ParseType typesMap2 pkg2) rs)
      by (intros c Hin; apply Hc, in_or_app; now right).
    reflexivity.
  - now rewrite (Hc Elt) by now left.
  - rewrite (Hc Key) by now left.
    now rewrite (Hc Value) by (right; now left).
  - now rewrite (Hc Value) by now left.
Qed.

(** X2: the set of local types and the destination package reach the result
    of [ParseType] only through the qualifier they give to the bare
    identifiers in type position: two calls that agree on it return the
    same.  A qualified reference is left as it is, even when its name is in
    the set. *)
Theorem parse_depends_on_qualifiers
    (typesMap1 typesMap2 : gset string) (pkg1 pkg2 : string) (node : Node) :
  (forall name, typePosition node (Ident name) ->
     (if bool_decide (name ∈ typesMap1) then pkg1 else "")
     = (if bool_decide (name ∈ typesMap2) then pkg2 else "")) ->
  ParseType typesMap1 pkg1 node = ParseType typesMap2 pkg2 node.
Proof.
  intros H.
  now apply (ParseType_qualifier_bounded _ _ _ _ (S (size node))); [lia|].
Qed.

Lemma parse_depends_on_qualifiers_witness :
  ParseType {["Foo"]} "out"
    (MapType (Ident "string") (StarExpr (SelectorExpr (Ident "pkg") "Foo")))
  = ParseType ∅ "other"
      (MapType (Ident "string") (StarExpr (SelectorExpr (Ident "pkg") "Foo"))).
Proof.
  apply parse_depends_on_qualifiers. intros name H.
  inversion H as [|? c ? Hin Hc]; subst.
  destruct Hin as [<- | [<- | []]].
  - inversion Hc as [|? c' ? Hin' _]; subst; [reflexivity | destruct Hin'].
  - inversion Hc as [|? c' ? Hin' Hc']; subst.
    destruct Hin' as [<- | []].
    inversion Hc' as [|? c'' ? Hin'' _]; subst. destruct Hin''.
Defined.

(** ** What holds of every type of a parsed tree *)

Lemma everywhere_eq (P : Type_ -> bool) (t : Type_) :
  everywhere P t =
  P t
  && everywhereOpt (everywhere P) (Child t)
  && everywhereOpt (everywhere P) (mapKeyType t)
  && everywhereOpt (everywhere P) (mapValType t)
  && forallb (everywhereParam (everywhere P)) (Params t)
  && forallb (everywhereParam (everywhere P)) (Results t).
Proof. now destruct t. Qed.

Section ParseManyParams.
Variable parse : Node -> result Type_.

Lemma parseField_params (fld : Field) (ps : list (option Param)) :
  parseField parse fld = OK ps -> Forall (parsedParam parse [fld]) ps.
Proof.
  unfold parseField. destruct (parse (FieldType fld)) as [t|msg] eqn:E.
  - assert (Hnames : forall names qs,
               mapM (fun name : string =>
                       t ← @OK Type_ t; OK (Some (mkParam name (Some t))))
                    names = OK qs ->
               Forall (parsedParam parse [fld]) qs).
    { induction names as [|n names IH]; simpl; intros qs H.
      - inversion H. constructor.
      - destruct (mapM _ names) as [qs'|]; simpl in H; [|discriminate].
        inversion H; subst. constructor; [|now apply IH].
        exists n, fld, t. split; [reflexivity|]. split; [now left | exact E]. }
    destruct (Names fld) as [|n names].
    + simpl. intros H. inversion H; subst. constructor; [|constructor].
      exists "", fld, t. split; [reflexivity|]. split; [now left | exact E].
    + apply Hnames.
  - destruct (Names fld) as [|n names]; simpl; discriminate.
Qed.

Lemma ParseManyWith_params (fields : list Field) (ps : list (option Param)) :
  ParseManyWith parse fields = OK ps -> Forall (parsedParam parse fields) ps.
Proof.
  unfold ParseManyWith. revert ps.
  induction fields as [|fld fields IH]; intros ps H; simpl in H.
  - inversion H. constructor.
  - destruct (parseField parse fld) as [qs|] eqn:Ef; simpl in H;
      [|discriminate].
    destruct (mapM (parseField parse) fields) as [qss|] eqn:Em;
      simpl in H; [|discriminate].
    inversion H; subst. simpl. apply Forall_app. split.
    + eapply Forall_impl; [exact (parseField_params fld qs Ef)|].
      intros p (name & f & t & -> & [-> | []] & Ht).
      exists name, f, t. split; [reflexivity|]. split; [now left | exact Ht].
    + eapply Forall_impl; [exact (IH (concat qss) eq_refl)|].
      intros p (name & f & t & -> & Hin & Ht).
      exists name, f, t. split; [reflexivity|]. split; [now right | exact Ht].
Qed.

Lemma ParseManyOf_params
    (fl : option (list Field)) (ps : list (option Param)) :
  ParseManyOf parse fl = OK ps -> Forall (parsedParam parse (extractList fl)) ps.
Proof.
  destruct fl as [l|]; simpl; [apply ParseManyWith_params|].
  intros H. inversion H. constructor.
Qed.
End ParseManyParams.

Section ParsedEverywhere.
Variable typesMap : gset string.
Variable pkg : string.
Variable P : Type_ -> bool.
Hypothesis P_root : forall node t,
  ParseType typesMap pkg node = OK t -> P t = true.

Lemma ParseMany_everywhere (n : nat)
    (fl : option (list Field)) (ps : list (option Param)) :
  (forall node t, size node < n -> ParseType typesMap pkg node = OK t ->
                  everywhere P t = true) ->
  match fl with
  | Some l => S (list_sum (map sizeField l))
  | None => 0
  end <= n ->
  ParseManyOf (ParseType typesMap pkg) fl = OK ps ->
  forallb (everywhereParam (everywhere P)) ps = true.
Proof.
  intros IH Hsize H. apply forallb_forall. intros p Hp.
  pose proof (ParseManyOf_params _ fl ps H) as Hall.
  rewrite Forall_forall in Hall.
  destruct (Hall p) as (name & fld & t & -> & Hin & Ht).
  { apply list_elem_of_In. exact Hp. }
  simpl. apply (IH (FieldType fld)); [|exact Ht].
  pose proof (size_field_type fl fld Hin). lia.
Qed.

Lemma ParseType_everywhere_bounded (n : nat) :
  forall node t, size node < n ->
    ParseType typesMap pkg node = OK t -> everywhere P t = true.
Proof.
  induction n as [|n IH]; intros node t Hsize H; [lia|].
  pose proof (P_root node t H) as Hroot.
  rewrite everywhere_eq, Hroot.
  destruct node as
    [|name|X Sel|Elt|X|ps rs|Len Elt|Key Value|ms|dir Value|name type
     |name decls|l|fld|dyn cs];
    simpl in H; try discriminate H.
  - now inversion H.
  - now inversion H.
  - destruct (ParseType typesMap pkg Elt) as [c|] eqn:E; simpl in H;
      [|discriminate].
    inversion H; subst. simpl in Hsize. simpl.
    rewrite (IH Elt c); [reflexivity | lia | exact E].
  - destruct (ParseType typesMap pkg X) as [c|] eqn:E; simpl in H;
      [|discriminate].
    inversion H; subst. simpl in Hsize. simpl.
    rewrite (IH X c); [reflexivity | lia | exact E].
  - destruct (ParseManyOf (ParseType typesMap pkg) ps) as [ps'|] eqn:Ep;
      simpl in H; [|discriminate].
    destruct (ParseManyOf (ParseType typesMap pkg) rs) as [rs'|] eqn:Er;
      simpl in H; [|discriminate].
    inversion H; subst. simpl in Hsize. simpl.
    rewrite (ParseMany_everywhere n ps ps'), (ParseMany_everywhere n rs rs');
      first [reflexivity | assumption | lia].
  - destruct (ParseType typesMap pkg Elt) as [c|] eqn:E; simpl in H;
      [|discriminate].
    inversion H; subst. simpl in Hsize. simpl.
    rewrite (IH Elt c); [reflexivity | lia | exact E].
  - destruct (ParseType typesMap pkg Key) as [k|] eqn:Ek; simpl in H;
      [|discriminate].
    destruct (ParseType typesMap pkg Value) as [v|] eqn:Ev; simpl in H;
      [|discriminate].
    inversion H; subst. simpl in Hsize. simpl.
    rewrite (IH Key k), (IH Value v);
      first [reflexivity | lia | assumption].
  - now inversion H.
  - destruct (ParseType typesMap pkg Value) as [c|] eqn:E; simpl in H;
      [|discriminate].
    inversion H; subst. simpl in Hsize. simpl.
    rewrite (IH Value c); [reflexivity | lia | exact E].
Qed.
End ParsedEverywhere.

Ltac parsed_root node H :=
  destruct node; simpl in H; try discriminate H;
  repeat match type of H with
         | context [ParseType ?tm ?pkg ?n] =>
             destruct (ParseType tm pkg n); simpl in H; try discriminate H
         | context [ParseManyOf ?f ?fl] =>
             destruct (ParseManyOf f fl); simpl in H; try discriminate H
         end;
  inversion H; subst; reflexivity.

(** X3: every type of a tree that [ParseType] returns has one of the nine
    kinds that [String] has a case for: the empty string that [String]
    gives for any other kind comes from no parsed type. *)
Theorem parsed_kinds_are_recognized
    (typesMap : gset string) (pkg : string) (node : Node) (t : Type_) :
  ParseType typesMap pkg node = OK t ->
  everywhere hasRecognizedKind t = true.
Proof.
  apply (ParseType_everywhere_bounded typesMap pkg hasRecognizedKind)
    with (n := S (size node)); [|lia].
  clear node t. intros node t H. parsed_root node H.
Qed.

Lemma parsed_kinds_are_recognized_witness :
  everywhere hasRecognizedKind
    (chanType RECV (identType "" "int")) = true.
Proof.
  apply (parsed_kinds_are_recognized ∅ "out" (ChanType RECV (Ident "int"))).
  reflexivity.
Defined.

(** X4: in every type of a tree that [ParseType] returns, the fields that do
    not belong to the kind hold their zero value: [Child] is set exactly for
    a pointer, slice, variadic or channel, the key and value types exactly
    for a map, [Params] and [Results] are empty unless it is a function,
    [Package] and [Name] unless an identifier or a qualified reference, and
    the direction is zero unless a channel. *)
Theorem parsed_fields_match_kind
    (typesMap : gset string) (pkg : string) (node : Node) (t : Type_) :
  ParseType typesMap pkg node = OK t ->
  everywhere fieldsMatchKind t = true.
Proof.
  apply (ParseType_everywhere_bounded typesMap pkg fieldsMatchKind)
    with (n := S (size node)); [|lia].
  clear node t. intros node t H. parsed_root node H.
Qed.

Lemma parsed_fields_match_kind_witness :
  everywhere fieldsMatchKind
    (chanType RECV (identType "" "int")) = true.
Proof.
  apply (parsed_fields_match_kind ∅ "out" (ChanType RECV (Ident "int"))).
  reflexivity.
Defined.

(** ** The text of a composite type *)

Lemma Sprintf_variadic (s : string) : Sprintf "...%s" [s] = "..." ++ s.
Proof.
  change ("..." ++ s ++ "" = "..." ++ s). now rewrite append_empty_r.
Qed.

Lemma Sprintf_slice (s : string) : Sprintf "[]%s" [s] = "[]" ++ s.
Proof. change ("[]" ++ s ++ "" = "[]" ++ s). now rewrite append_empty_r. Qed.

Lemma Sprintf_map_type (k v : string) :
  Sprintf "map[%s]%s" [k; v] = "map[" ++ k ++ "]" ++ v.
Proof.
  change ("map[" ++ k ++ "]" ++ v ++ "" = "map[" ++ k ++ "]" ++ v).
  now rewrite append_empty_r.
Qed.

Section RenderNode.
Variable typesMap : gset string.
Variable pkg : string.

Lemma renderNode_star (X : Node) :
  renderNode typesMap pkg (StarExpr X)
  = s ← renderNode typesMap pkg X; OK ("*" ++ s).
Proof.
  unfold renderNode. simpl.
  destruct (ParseType typesMap pkg X) as [c|msg]; reflexivity.
Qed.

Lemma renderNode_ellipsis (Elt : Node) :
  renderNode typesMap pkg (Ellipsis Elt)
  = s ← renderNode typesMap pkg Elt; OK ("..." ++ s).
Proof.
  unfold renderNode. simpl.
  destruct (ParseType typesMap pkg Elt) as [c|msg]; [|reflexivity].
  simpl. destruct (String_ c) as [s|msg]; [|reflexivity].
  exact (f_equal OK (Sprintf_variadic s)).
Qed.

Lemma renderNode_array (Len Elt : Node) :
  renderNode typesMap pkg (ArrayType Len Elt)
  = s ← renderNode typesMap pkg Elt; OK ("[]" ++ s).
Proof.
  unfold renderNode. simpl.
  destruct (ParseType typesMap pkg Elt) as [c|msg]; [|reflexivity].
  simpl. destruct (String_ c) as [s|msg]; [|reflexivity].
  exact (f_equal OK (Sprintf_slice s)).
Qed.

Lemma renderNode_chan (dir : Z) (Value : Node) :
  renderNode typesMap pkg (ChanType dir Value)
  = s ← renderNode typesMap pkg Value;
    OK ((if Z.eqb dir RECV then "<-chan "
         else if Z.eqb dir SEND then "chan<- " else "chan ") ++ s).
Proof.
  unfold renderNode. simpl.
  destruct (ParseType typesMap pkg Value) as [c|msg]; [|reflexivity].
  simpl. destruct (String_ c) as [s|msg]; [|reflexivity].
  destruct (Z.eqb dir RECV); [exact (f_equal OK (Sprintf_chan_recv s))|].
  destruct (Z.eqb dir SEND);
    [exact (f_equal OK (Sprintf_chan_send s))
    | exact (f_equal OK (Sprintf_chan s))].
Qed.

Lemma renderNode_map (Key Value : Node) :
  renderNode typesMap pkg (MapType Key Value)
  = k ← renderNode typesMap pkg Key;
    v ← renderNode typesMap pkg Value;
    OK ("map[" ++ k ++ "]" ++ v).
Proof.
  unfold renderNode. simpl.
  destruct (ParseType typesMap pkg Key) as [k|msg] eqn:Ek; [|reflexivity].
  destruct (parsed_type_renders _ _ _ _ Ek) as [sk Hk].
  simpl. rewrite Hk. simpl.
  destruct (ParseType typesMap pkg Value) as [v|msg]; [|reflexivity].
  simpl. rewrite Hk. simpl.
  destruct (String_ v) as [sv|msg]; [|reflexivity].
  exact (f_equal OK (Sprintf_map_type sk sv)).
Qed.
End RenderNode.

(** X5: [String] does not panic on a type that [ParseType] returned.  So
    parsing a type expression and rendering the result either gives a text
    or panics in the parser, on a node of unsupported shape in type
    position; it never fails with a nil pointer dereference. *)
Theorem parse_then_render_outcome
    (typesMap : gset string) (pkg : string) (node : Node) :
  (forall t, ParseType typesMap pkg node = OK t -> exists s, String_ t = OK s)
  /\ ((exists s, renderNode typesMap pkg node = OK s)
      \/ (exists m, typePosition node m /\ supportedShape m = false
                    /\ renderNode typesMap pkg node
                       = Panic ("unhandled type " ++ dynamicType m))).
Proof.
  split; [intros t; apply parsed_type_renders|].
  unfold renderNode.
  destruct (ParseType_outcome_bounded typesMap pkg (S (size node)) node)
    as [[t Ht] | (m & Hm & Hs & Hp)]; [lia | |].
  - left. destruct (parsed_type_renders _ _ _ _ Ht) as [s Hs].
    exists s. rewrite Ht. exact Hs.
  - right. exists m. split; [exact Hm|]. split; [exact Hs|].
    rewrite Hp. reflexivity.
Qed.

(** X6: the text of a composite type expression is built from the texts of
    its parts: [*] before a pointed-to type, [...] before a variadic one,
    [[]] before the element of an array, whose length node is not looked
    at (so that a fixed-size array reads as a slice), [map[K]V] for a map
    and the direction prefix before the element of a channel; a panic in a
    part is the panic of the whole. *)
Theorem composite_type_text (typesMap : gset string) (pkg : string) :
  (forall X,
     renderNode typesMap pkg (StarExpr X)
     = s ← renderNode typesMap pkg X; OK ("*" ++ s))
  /\ (forall Elt,
        renderNode typesMap pkg (Ellipsis Elt)
        = s ← renderNode typesMap pkg Elt; OK ("..." ++ s))
  /\ (forall Len Elt,
        renderNode typesMap pkg (ArrayType Len Elt)
        = s ← renderNode typesMap pkg Elt; OK ("[]" ++ s))
  /\ (forall Key Value,
        renderNode typesMap pkg (MapType Key Value)
        = k ← renderNode typesMap pkg Key;
          v ← renderNode typesMap pkg Value;
          OK ("map[" ++ k ++ "]" ++ v))
  /\ (forall dir Value,
        renderNode typesMap pkg (ChanType dir Value)
        = s ← renderNode typesMap pkg Value;
          OK ((if Z.eqb dir RECV then "<-chan "
               else if Z.eqb dir SEND then "chan<- " else "chan ") ++ s)).
Proof.
  repeat split; intros.
  - apply renderNode_star.
  - apply renderNode_ellipsis.
  - apply renderNode_array.
  - apply renderNode_map.
  - apply renderNode_chan.
Qed.

(** ** Rendering a type that misses a part *)

(** X7: [String] on a pointer, slice, variadic or channel type whose [Child]
    is nil, or on a map type whose key type is nil, panics with a nil
    pointer dereference. *)
Theorem missing_part_panics (t : Type_) :
  (needsChild (Kind t) = true /\ Child t = None)
  \/ (Kind t = TypeKindMap /\ mapKeyType t = None) ->
  String_ t = Panic nilDereference.
Proof.
  intros [[Hk Hc] | [Hk Hc]]; rewrite String_eq, Hc.
  - unfold needsChild in Hk.
    destruct (String.eqb_spec (Kind t) TypeKindStar) as [->|_];
      [reflexivity|].
    destruct (String.eqb_spec (Kind t) TypeKindArray) as [->|_];
      [reflexivity|].
    destruct (String.eqb_spec (Kind t) TypeKindEllipsis) as [->|_];
      [reflexivity|].
    destruct (String.eqb_spec (Kind t) TypeKindChan) as [->|_];
      [reflexivity | discriminate Hk].
  - rewrite Hk. reflexivity.
Qed.

Lemma missing_part_panics_witness :
  String_ {| Child := None; Package := ""; Name := ""; Kind := TypeKindStar;
             Results := []; Params := []; mapKeyType := None;
             mapValType := None; chanDir := 0 |}
  = Panic nilDereference.
Proof. apply missing_part_panics. left. split; reflexivity. Defined.

(** X8: on a heap where a pointer, slice, variadic or channel struct is its
    own [Child], the method does not return, however many nested calls it
    is given. *)
Theorem cyclic_child_never_returns (h : Heap) (l : loc) (c : TypeCell) :
  typeCells h !! l = Some c ->
  needsChild (cKind c) = true ->
  cChild c = Some l ->
  forall calls, StringAt calls (Some l) h = None.
Proof.
  intros Hc Hk Hchild calls. induction calls as [|calls IH]; [reflexivity|].
  cbn [StringAt]. unfold bindM at 1. simpl loadType. rewrite Hc, Hchild.
  unfold needsChild in Hk.
  destruct (String.eqb (cKind c) TypeKindStar) eqn:E1.
  { unfold bindM. now rewrite IH. }
  destruct (String.eqb (cKind c) TypeKindIdent) eqn:E2.
  { apply String.eqb_eq in E2. rewrite E2 in Hk. discriminate Hk. }
  destruct (String.eqb (cKind c) TypeKindEllipsis) eqn:E3.
  { unfold bindM. now rewrite IH. }
  destruct (String.eqb (cKind c) TypeKindArray) eqn:E4.
  { unfold bindM. now rewrite IH. }
  simpl in Hk.
  destruct (String.eqb (cKind c) TypeKindMap) eqn:E5.
  { apply String.eqb_eq in E5. rewrite E5 in Hk. discriminate Hk. }
  destruct (String.eqb (cKind c) TypeKindSelector) eqn:E6.
  { apply String.eqb_eq in E6. rewrite E6 in Hk. discriminate Hk. }
  destruct (String.eqb (cKind c) TypeKindInterface) eqn:E7.
  { apply String.eqb_eq in E7. rewrite E7 in Hk. discriminate Hk. }
  destruct (String.eqb (cKind c) TypeKindFunc) eqn:E8.
  { apply String.eqb_eq in E8. rewrite E8 in Hk. discriminate Hk. }
  rewrite Hk. unfold bindM. now rewrite IH.
Qed.

Lemma cyclic_child_never_returns_witness :
  StringAt 50 (Some 1%positive)
    {| typeCells :=
         <[1%positive := mkTypeCell (Some 1%positive) "" "" TypeKindStar
                           [] [] None None 0]> ∅;
       paramCells := ∅ |}
  = None.
Proof.
  apply (cyclic_child_never_returns _ 1%positive
           (mkTypeCell (Some 1%positive) "" "" TypeKindStar
              [] [] None None 0)); reflexivity.
Defined.

(** ** The order of the collected names *)

Section CollectOrder.
Variable IsExported : string -> bool.

Lemma collectType_own (node : Node) (types : list string) :
  collectType IsExported node types
  = (true, (types ++ ownType IsExported node)%list).
Proof.
  destruct node as
    [|name|X Sel|Elt|X|ps rs|Len Elt|Key Value|ms|dir Value|name type
     |name decls|l|fld|dyn cs];
    simpl; try now rewrite app_nil_r.
  destruct (IsExported name); simpl; [reflexivity | now rewrite app_nil_r].
Qed.

Lemma fold_Inspect_acc (cs : list Node) :
  (forall c, In c cs -> forall s,
      Inspect (collectType IsExported) c s
      = (s ++ parseTypesFromFile IsExported c)%list) ->
  forall s,
    fold_left (fun s c => Inspect (collectType IsExported) c s) cs s
    = (s ++ concat (map (parseTypesFromFile IsExported) cs))%list.
Proof.
  induction cs as [|c cs IH]; intros Hcs s; simpl.
  - now rewrite app_nil_r.
  - rewrite IH by (intros c' Hin; apply Hcs; now right).
    rewrite (Hcs c) by now left. now rewrite app_assoc.
Qed.

Lemma Inspect_collect_acc_bounded (n : nat) :
  forall node, size node < n ->
    (forall s, Inspect (collectType IsExported) node s
               = (s ++ parseTypesFromFile IsExported node)%list)
    /\ (node <> NilNode ->
        parseTypesFromFile IsExported node
        = (ownType IsExported node
           ++ concat (map (parseTypesFromFile IsExported)
                          (children node)))%list).
Proof.
  induction n as [|n IH]; intros node Hsize; [lia|].
  assert (Hcase : node = NilNode \/ node <> NilNode)
    by (destruct node; (now left) || (right; discriminate)).
  destruct Hcase as [-> | Hnil].
  - split; [|contradiction]. intros s. simpl. now rewrite app_nil_r.
  - assert (Hs : forall s,
               Inspect (collectType IsExported) node s
               = (s ++ ownType IsExported node
                    ++ concat (map (parseTypesFromFile IsExported)
                                   (children node)))%list).
    { intros s. rewrite Inspect_children by exact Hnil. unfold visit.
      rewrite collectType_own.
      rewrite fold_Inspect_acc.
      - rewrite collectType_own. simpl. unfold ownType at 2.
        now rewrite app_nil_r, app_assoc.
      - intros c Hc. apply IH.
        pose proof (size_children node c Hc). lia. }
    assert (Hp : parseTypesFromFile IsExported node
                 = (ownType IsExported node
                    ++ concat (map (parseTypesFromFile IsExported)
                                   (children node)))%list)
      by (unfold parseTypesFromFile at 1; now rewrite Hs).
    split; [|intros _; exact Hp].
    intros s. now rewrite Hs, Hp.
Qed.
End CollectOrder.

(** X9: [parseTypesFromFile] lists the names in the order of the source,
    without removing repetitions: on a node that is not nil its result is
    the name of the node, when the node declares an exported type, followed
    by the results on the children of the node, in their order. *)
Theorem collected_in_source_order
    (IsExported : string -> bool) (node : Node) :
  node <> NilNode ->
  parseTypesFromFile IsExported node
  = (ownType IsExported node
     ++ concat (map (parseTypesFromFile IsExported) (children node)))%list.
Proof.
  intros Hnil.
  now apply (Inspect_collect_acc_bounded IsExported (S (size node)) node);
    [lia|].
Qed.

Lemma collected_in_source_order_witness :
  parseTypesFromFile IsExportedASCII
    (OtherNode "*ast.GenDecl"
       [TypeSpec "B" (Ident "int"); TypeSpec "A" (Ident "int");
        TypeSpec "B" (Ident "int")])
  = ["B"; "A"; "B"].
Proof.
  rewrite collected_in_source_order by discriminate. reflexivity.
Defined.

(** ** The source files of a directory *)

Lemma string_length_append (s1 s2 : string) :
  String.length (s1 ++ s2) = String.length s1 + String.length s2.
Proof.
  induction s1 as [|c s1 IH]; [reflexivity|].
  change (S (String.length (s1 ++ s2))
          = S (String.length s1 + String.length s2)).
  now rewrite IH.
Qed.

Lemma substring_whole (s : string) : substring 0 (String.length s) s = s.
Proof. induction s as [|c s IH]; simpl; [reflexivity | now rewrite IH]. Qed.

Lemma substring_after (s1 s2 : string) (m : nat) :
  substring (String.length s1) m (s1 ++ s2) = substring 0 m s2.
Proof.
  induction s1 as [|c s1 IH]; [reflexivity|].
  change (substring (String.length s1) m (s1 ++ s2) = substring 0 m s2).
  exact IH.
Qed.

Lemma substring_split (s : string) :
  forall k, k <= String.length s ->
    s = substring 0 k s ++ substring k (String.length s - k) s.
Proof.
  induction s as [|c s IH]; intros k Hk.
  - simpl in Hk. assert (k = 0) by lia. subst k. reflexivity.
  - destruct k as [|k].
    + change (String c s = "" ++ substring 0 (String.length (String c s))
                                   (String c s)).
      now rewrite substring_whole.
    + simpl in Hk.
      change (String c s
              = String c (substring 0 k s
                          ++ substring k (String.length s - k) s)).
      now rewrite <- IH by lia.
Qed.

(** [strings.HasSuffix] holds exactly of the strings that end in the
    suffix. *)
Lemma HasSuffix_spec (s suffix : string) :
  HasSuffix s suffix = true <-> exists stem, s = stem ++ suffix.
Proof.
  unfold HasSuffix. split.
  - intros H. apply andb_prop in H. destruct H as [Hlen Heq].
    apply Nat.leb_le in Hlen. apply String.eqb_eq in Heq.
    exists (substring 0 (String.length s - String.length suffix) s).
    pose proof (substring_split s (String.length s - String.length suffix))
      as Hsplit.
    replace (String.length s - (String.length s - String.length suffix))
      with (String.length suffix) in Hsplit by lia.
    rewrite Heq in Hsplit. apply Hsplit. lia.
  - intros [stem ->]. rewrite string_length_append.
    apply andb_true_intro. split; [apply Nat.leb_le; lia|].
    replace (String.length stem + String.length suffix
             - String.length suffix) with (String.length stem) by lia.
    rewrite substring_after, substring_whole. apply String.eqb_refl.
Qed.

Section FindSourceFilesSpec.
Variable ReadDir : string -> list DirEntry * option string.
Variable filepathJoin : string -> string -> string.

Lemma keepSourceFile_fold (directory : string) (entries : list DirEntry) :
  forall files,
    fold_left (keepSourceFile filepathJoin directory) entries files
    = (files
       ++ map (fun e => filepathJoin directory (entryName e))
              (List.filter isSourceFile entries))%list.
Proof.
  induction entries as [|e entries IH]; intros files; simpl.
  - now rewrite app_nil_r.
  - rewrite IH. unfold keepSourceFile, isSourceFile.
    destruct (entryIsDir e); simpl; [reflexivity|].
    destruct (HasSuffix (entryName e) "_test.go"); simpl.
    + now rewrite andb_false_r.
    + destruct (HasSuffix (entryName e) ".go"); simpl; [|reflexivity].
      now rewrite <- app_assoc.
Qed.
End FindSourceFilesSpec.

(** X10: when [os.ReadDir] reports an error, [findSourceFiles] returns no
    file and that error, whatever entries were read.  Otherwise it returns,
    in the order of the entries, the directory joined with the name of each
    entry that is not a directory and whose name ends in [.go] but not in
    [_test.go], and no error. *)
Theorem findSourceFiles_result
    (ReadDir : string -> list DirEntry * option string)
    (filepathJoin : string -> string -> string)
    (directory : string) (entries : list DirEntry) (err : option string) :
  ReadDir directory = (entries, err) ->
  (forall e, err = Some e ->
     findSourceFiles ReadDir filepathJoin directory = ([], Some e))
  /\ (err = None ->
      findSourceFiles ReadDir filepathJoin directory
      = (map (fun e => filepathJoin directory (entryName e))
             (List.filter isSourceFile entries), None))
  /\ (forall e,
        isSourceFile e = true
        <-> entryIsDir e = false
            /\ (exists stem, entryName e = stem ++ ".go")
            /\ ~ (exists stem, entryName e = stem ++ "_test.go")).
Proof.
  intros Hread. unfold findSourceFiles. rewrite Hread.
  split; [intros e ->; reflexivity|]. split.
  - intros ->. now rewrite keepSourceFile_fold.
  - intros e. unfold isSourceFile.
    rewrite !andb_true_iff, !negb_true_iff, HasSuffix_spec.
    rewrite <- (HasSuffix_spec (entryName e) "_test.go").
    destruct (HasSuffix (entryName e) "_test.go"); intuition congruence.
Qed.

Lemma findSourceFiles_result_witness :
  findSourceFiles
    (fun _ => ([mkDirEntry "a.go" false; mkDirEntry "a_test.go" false;
                mkDirEntry "vendor.go" true; mkDirEntry "README.md" false;
                mkDirEntry ".go" false], None))
    (fun dir name => dir ++ "/" ++ name) "pkg"
  = (["pkg/a.go"; "pkg/.go"], None).
Proof.
  refine (proj1 (proj2 (findSourceFiles_result _ _ "pkg" _ None eq_refl))
                eq_refl).
Defined.
